(** * prefect dev: the development commands of src/prefect/cli/dev.py

    A shallow embedding of the [dev] command group (build_docs, build_ui,
    ui, start, kubernetes_manifest) over an explicit world: the working directory, the process
    environment, the file system, the behaviour of the external tools and
    the log of what a command did.  The commands are sequential Python with
    one suspension point (the watch process awaited by [ui]); they are
    written in a small resumption monad with Python's exceptions. *)

From Stdlib Require Import ZArith Ascii String.
From stdpp Require Import base option list strings gmap.

Set Warnings "-register-all".
Local Open Scope Z_scope.
Local Open Scope string_scope.
Local Open Scope list_scope.

(** ** Data *)

(** A path is its list of components below the file system's root. *)
Definition path := list string.

(** [os.environ] and the [env=] argument of a spawned process. *)
Abbreviation environ := (gmap string string).

(** JSON values; a Python dict is the ordered list of its items. *)
Inductive json :=
| JNull
| JBool (b : bool)
| JNum (n : Z)
| JStr (s : string)
| JArr (items : list json)
| JObj (members : list (string * json)).

Abbreviation pydict := (list (string * json)).

Inductive content :=
| Text (s : string)
| Document (d : json).

Inductive node :=
| Dir
| File (c : content).

Definition filesystem := path → option node.

(** The exceptions the commands can meet. *)
Inductive exn :=
| CalledProcessError (returncode : Z) (cmd : list string)
| FileNotFoundError (p : path)
| FileExistsError (p : path)
| NotADirectoryError (p : path)
| IsADirectoryError (p : path)
| KeyboardInterrupt
| RuntimeError (msg : string).

Inductive result (A : Type) :=
| Ok (a : A)
| Raise (e : exn).
Arguments Ok {A} a.
Arguments Raise {A} e.

(** What a command leaves behind, in order. *)
Inductive event :=
| Printed (msg : string)
| Ran (cmd : list string) (env : environ) (dir : path) (returncode : Z)
| Opened (cmd : list string) (env : environ) (dir : path)
| Closed (cmd : list string) (returncode : Z)
| Removed (p : path)
| Copied (src dst : path)
| Dumped (p : path) (doc : json).

(** The constants of the [prefect] package the commands read
    (prefect/__init__.py is not part of the sources at hand). *)
Record prefect := {
  root_path : path;
  ui_static_path : path;
}.

(** The world a command runs in.  [installed] says which executables can
    be launched; [tools] is what a launched program does when it is run to
    completion: its exit status and the file system it leaves. *)
Record world := {
  cwd : path;
  os_environ : environ;
  fs : filesystem;
  installed : string → bool;
  tools : list string → environ → path → filesystem → Z * filesystem;
  log : list event;
}.

Definition set_cwd (p : path) (w : world) : world :=
  {| cwd := p; os_environ := os_environ w; fs := fs w;
     installed := installed w; tools := tools w; log := log w |}.

Definition set_fs (f : filesystem) (w : world) : world :=
  {| cwd := cwd w; os_environ := os_environ w; fs := f;
     installed := installed w; tools := tools w; log := log w |}.

Definition record (e : event) (w : world) : world :=
  {| cwd := cwd w; os_environ := os_environ w; fs := fs w;
     installed := installed w; tools := tools w; log := log w ++ [e] |}.

(** ** The monad of commands *)

(** A command either returns (or raises) in a world, or is suspended on a
    child process and resumes with that process's exit status in the world
    of that moment. *)
Inductive task (A : Type) :=
| Return (r : result A) (w : world)
| Await (w : world) (k : Z → world → task A).
Arguments Return {A} r w.
Arguments Await {A} w k.

Definition M (A : Type) : Type := world → task A.

Fixpoint bind_task {A B} (t : task A) (f : A → M B) : task B :=
  match t with
  | Return (Ok a) w => f a w
  | Return (Raise e) w => Return (Raise e) w
  | Await w k => Await w (λ rc w', bind_task (k rc w') f)
  end.

#[export] Instance M_ret : MRet M := λ A a w, Return (Ok a) w.
#[export] Instance M_bind : MBind M := λ A B f m w, bind_task (m w) f.

Definition raise {A} (e : exn) : M A := λ w, Return (Raise e) w.

(** [try: body finally: cleanup], for a cleanup that cannot fail. *)
Fixpoint finally_task {A} (t : task A) (cleanup : world → world) : task A :=
  match t with
  | Return r w => Return r (cleanup w)
  | Await w k => Await w (λ rc w', finally_task (k rc w') cleanup)
  end.

(** A command that never suspends has a result and a final world. *)
Definition run_sync {A} (t : task A) : option (result A * world) :=
  match t with
  | Return r w => Some (r, w)
  | Await _ _ => None
  end.

(** The exit status of the tool for a command that returned or let an
    exception escape (the interpreter's status for an uncaught error). *)
Definition exit_status {A} (r : result A) : Z :=
  match r with
  | Ok _ => 0
  | Raise _ => 1
  end.

(** ** Paths *)

Definition is_prefix_b (p q : path) : bool := bool_decide (p `prefix_of` q).

(** [strip p q] is the rest of [q] below [p]. *)
Fixpoint strip (p q : path) : option path :=
  match p, q with
  | [], _ => Some q
  | a :: p', b :: q' => if decide (a = b) then strip p' q' else None
  | _ :: _, [] => None
  end.

(** A path as a command hands it to the library: a path object, absolute
    or relative to the working directory, whose components are names; or
    a path given as text on the command line, which the operating system
    reads name by name ([open] in [build_docs] is the only call that is
    given one). *)
Inductive pathlike :=
| Absolute (p : path)
| Relative (p : path)
| Named (s : string).

Fixpoint split_slash (s : string) (cur : string) : list string :=
  match s with
  | EmptyString => [cur]
  | String c s' =>
      if Ascii.eqb c "/"%char then cur :: split_slash s' ""
      else split_slash s' (cur ++ String c "")%string
  end.

(** What stands between the slashes of a path given as text. *)
Definition path_names (s : string) : list string := split_slash s "".

Definition is_absolute (s : string) : bool :=
  match s with
  | String c _ => Ascii.eqb c "/"%char
  | EmptyString => false
  end.

(** One name further from [dir], there being no symbolic links: the empty
    name and [.] stay, [..] goes up (and stays at the root), any other
    name goes down. *)
Definition enter (dir : path) (name : string) : path :=
  if decide (name = "" ∨ name = ".") then dir
  else if decide (name = "..") then removelast dir
  else dir ++ [name].

Definition resolve (w : world) (pl : pathlike) : path :=
  match pl with
  | Absolute p => p
  | Relative p => cwd w ++ p
  | Named s => foldl enter (if is_absolute s then [] else cwd w) (path_names s)
  end.

Fixpoint show_path (p : path) : string :=
  match p with
  | [] => ""
  | c :: p' => ("/" ++ c ++ show_path p')%string
  end.

(** ** Primitives: console, subprocess, os, shutil, json *)

(** [console.print(msg)] *)
Definition console_print (msg : string) : M unit :=
  λ w, Return (Ok tt) (record (Printed msg) w).

(** [os.environ.copy()] *)
Definition os_environ_copy : M environ :=
  λ w, Return (Ok (os_environ w)) w.

Definition program (cmd : list string) : string := hd "" cmd.

(** [subprocess.check_output(cmd, env=env)]: the child runs to completion
    in the current directory, with [env] when given and the inherited
    environment otherwise; a non-zero status raises CalledProcessError.
    The captured output, which no caller uses, is left out. *)
Definition check_output (cmd : list string) (env : option environ) : M unit :=
  λ w,
    if installed w (program cmd) then
      let e := default (os_environ w) env in
      let '(rc, fs') := tools w cmd e (cwd w) (fs w) in
      let w' := record (Ran cmd e (cwd w) rc) (set_fs fs' w) in
      if decide (rc = 0) then Return (Ok tt) w'
      else Return (Raise (CalledProcessError rc cmd)) w'
    else Return (Raise (FileNotFoundError [program cmd])) w.

(** Modelled from the spec: [open_process_and_stream_output] of
    prefect.cli.orion, which is not under src/, as the Process Runner of
    section 4.1: it launches the process with the given overrides (none
    here: the inherited environment), fails fast when the executable is
    missing, suspends the caller until the child exits and then returns the
    exit code; a crash of the child is an exit code, not a raised error. *)
Definition open_process_and_stream_output
    (cmd : list string) (env : option environ) : M Z :=
  λ w,
    if installed w (program cmd) then
      let e := default (os_environ w) env in
      Await (record (Opened cmd e (cwd w)) w)
            (λ rc w', Return (Ok rc) (record (Closed cmd rc) w'))
    else Return (Raise (FileNotFoundError [program cmd])) w.

(** [tmpchdir] of prefect.utilities.filesystem is neither under src/ nor
    described by the spec.  It is taken by its name and by the way the
    commands use it, as an assumption: a context manager that changes the
    working directory for the duration of its body and restores it on the
    way out, also when the body raises.  The change itself is taken to
    succeed: whether the directory exists is not looked at. *)
Definition tmpchdir {A} (p : path) (body : M A) : M A :=
  λ w, finally_task (body (set_cwd p w)) (set_cwd (cwd w)).

(** [os.path.exists(p)] *)
Definition os_path_exists (pl : pathlike) : M bool :=
  λ w, Return (Ok (bool_decide (is_Some (fs w (resolve w pl))))) w.

(** The file system after [shutil.rmtree(p)]: [p] and all below it gone. *)
Definition remove_tree (p : path) (f : filesystem) : filesystem :=
  λ q, if is_prefix_b p q then None else f q.

(** [shutil.rmtree(p)] *)
Definition rmtree (pl : pathlike) : M unit :=
  λ w,
    let p := resolve w pl in
    match fs w p with
    | None => Return (Raise (FileNotFoundError p)) w
    | Some (File _) => Return (Raise (NotADirectoryError p)) w
    | Some Dir => Return (Ok tt) (record (Removed p) (set_fs (remove_tree p (fs w)) w))
    end.

(** The ancestors of [p], nearest last, [p] itself excluded. *)
Definition ancestors (p : path) : list path :=
  (λ n, take n p) <$> seq 0 (length p).

Definition is_file (o : option node) : bool :=
  match o with
  | Some (File _) => true
  | _ => false
  end.

(** The file system after [shutil.copytree(src, dst)]: the tree below
    [src] is also below [dst], and the missing directories above [dst]
    exist. *)
Definition copy_tree (src dst : path) (f : filesystem) : filesystem :=
  λ q,
    match strip dst q with
    | Some r => f (src ++ r)
    | None =>
        if is_prefix_b q dst then
          match f q with
          | None => Some Dir
          | o => o
          end
        else f q
    end.

(** [shutil.copytree(src, dst)]: [src] must be a directory and [dst] must
    not exist (dirs_exist_ok is not given); the directories above [dst]
    are made as needed, and a file among them is an error. *)
Definition copytree (srcl dstl : pathlike) : M unit :=
  λ w,
    let src := resolve w srcl in
    let dst := resolve w dstl in
    match fs w src with
    | None => Return (Raise (FileNotFoundError src)) w
    | Some (File _) => Return (Raise (NotADirectoryError src)) w
    | Some Dir =>
        match fs w dst with
        | Some _ => Return (Raise (FileExistsError dst)) w
        | None =>
            match list_find (λ a, is_file (fs w a) = true) (ancestors dst) with
            | Some (_, a) => Return (Raise (NotADirectoryError a)) w
            | None =>
                Return (Ok tt)
                  (record (Copied src dst) (set_fs (copy_tree src dst (fs w)) w))
            end
        end
    end.

(** [d[k] = v] on a Python dict: the value is replaced where the key
    stands, and a new key goes to the end. *)
Fixpoint dict_set (k : string) (v : json) (d : pydict) : pydict :=
  match d with
  | [] => [(k, v)]
  | (k', v') :: d' =>
      if decide (k' = k) then (k, v) :: d' else (k', v') :: dict_set k v d'
  end.

Fixpoint dict_get (k : string) (d : pydict) : option json :=
  match d with
  | [] => None
  | (k', v') :: d' => if decide (k' = k) then Some v' else dict_get k d'
  end.

(** The names of a path without the empty names at its end (the
    slashes the text ends with). *)
Fixpoint trim (names : list string) : list string :=
  match names with
  | [] => []
  | n :: names' =>
      match trim names' with
      | [] => if decide (n = "") then [] else [n]
      | t => n :: t
      end
  end.

(** Where one stands after each of the names, from [dir] on. *)
Fixpoint passes (dir : path) (names : list string) : list path :=
  dir ::
  match names with
  | [] => []
  | n :: names' => passes (enter dir n) names'
  end.

(** The directories the operating system goes through to reach the last
    name of a path: for a path object the ancestors of the path, for a
    path given as text the places it passes from the root or the working
    directory, through every name but the last. *)
Definition through (w : world) (pl : pathlike) : list path :=
  match pl with
  | Named s =>
      passes (if is_absolute s then [] else cwd w) (removelast (trim (path_names s)))
  | _ => ancestors (resolve w pl)
  end.

(** A path given as text names a directory whatever the file system
    holds when it ends with a slash or with [.] or [..]. *)
Definition denotes_dir (pl : pathlike) : bool :=
  match pl with
  | Named s =>
      let names := path_names s in
      bool_decide (trim names ≠ names) ||
      match last (trim names) with
      | Some n => bool_decide (n = "." ∨ n = "..")
      | None => true
      end
  | _ => false
  end.

Inductive obstacle :=
| Missing
| NotDir.

(** The first of the directories that is not one. *)
Fixpoint obstacle_on (f : filesystem) (dirs : list path) : option obstacle :=
  match dirs with
  | [] => None
  | a :: dirs' =>
      match f a with
      | Some Dir => obstacle_on f dirs'
      | Some (File _) => Some NotDir
      | None => Some Missing
      end
  end.

Definition is_dir (o : option node) : bool :=
  match o with
  | Some Dir => true
  | _ => false
  end.

(** [open(p, "w")], as far as the file to write: every directory on the
    way must exist (the first that is missing gives FileNotFoundError, the
    first that is a file NotADirectoryError), and what the path names must
    not be a directory (IsADirectoryError; for a path that ends with a
    slash this is what Linux answers, whatever is there). *)
Definition locate (w : world) (pl : pathlike) : exn + path :=
  let p := resolve w pl in
  match obstacle_on (fs w) (through w pl) with
  | Some Missing => inl (FileNotFoundError p)
  | Some NotDir => inl (NotADirectoryError p)
  | None =>
      if denotes_dir pl || is_dir (fs w p) || bool_decide (p = [])
      then inl (IsADirectoryError p)
      else inr p
  end.

(** [with open(p, "w") as f: json.dump(doc, f)]: the file is created or
    truncated and holds the document. *)
Definition json_dump (doc : json) (pl : pathlike) : M unit :=
  λ w,
    match locate w pl with
    | inl e => Return (Raise e) w
    | inr p =>
        Return (Ok tt)
          (record (Dumped p doc)
             (set_fs (λ q, if decide (q = p) then Some (File (Document doc)) else fs w q) w))
    end.

(** ** The task group *)

(** Modelled from the spec: the Task Group Supervisor of section 4.3, which
    [start] gets from [anyio.create_task_group] and whose code is not under
    src/.  Units run on their own and post their completion to one queue
    (section 9: fan-out, one completion queue, cancel on first failure,
    drain); the supervisor takes completions from the queue in arrival
    order, on the first failure signals every unit that is still running,
    and returns once it has collected as many completions as it started
    units.  An interleaving is a list of actions. *)
Module TaskGroup.

Inductive outcome :=
| Succeeded
| Failed (e : exn)
| Cancelled.

Inductive status :=
| Running
| Ended (o : outcome).

(** A unit: what it runs, where it stands, and whether the supervisor has
    sent it the cancellation signal. *)
Record member (C : Type) := {
  body : C;
  st : status;
  signalled : bool;
}.
Arguments body {C} m.
Arguments st {C} m.
Arguments signalled {C} m.

Inductive phase :=
| GRunning
| GCancelling (first : exn)
| GSucceeded
| GTerminated (first : exn).

Record group (C : Type) := {
  units : list (member C);
  queue : list (nat * outcome);
  collected : nat;
  ph : phase;
}.
Arguments units {C} g.
Arguments queue {C} g.
Arguments collected {C} g.
Arguments ph {C} g.

(** [anyio.create_task_group()] *)
Definition create_task_group {C} : group C :=
  {| units := []; queue := []; collected := 0%nat; ph := GRunning |}.

(** [tg.start_soon(c)]: one more unit, running. *)
Definition start_soon {C} (c : C) (g : group C) : group C :=
  {| units := units g ++ [{| body := c; st := Running; signalled := false |}];
     queue := queue g; collected := collected g; ph := ph g |}.

Inductive action :=
| Finish (i : nat) (r : result unit)
| Stop (i : nat)
| Receive
| Interrupt.

Definition is_running {C} (m : member C) : bool :=
  match st m with
  | Running => true
  | Ended _ => false
  end.

Definition returned {C} (g : group C) : bool :=
  match ph g with
  | GSucceeded | GTerminated _ => true
  | GRunning | GCancelling _ => false
  end.

(** Unit [i] reaches a terminal state and posts it. *)
Definition finish {C} (i : nat) (o : outcome) (g : group C) : option (group C) :=
  match units g !! i with
  | Some m =>
      if is_running m then
        Some {| units := <[i := {| body := body m; st := Ended o; signalled := signalled m |}]> (units g);
                queue := queue g ++ [(i, o)];
                collected := collected g; ph := ph g |}
      else None
  | None => None
  end.

Definition signal {C} (m : member C) : member C :=
  if is_running m then {| body := body m; st := st m; signalled := true |} else m.

(** The first failure: every unit still running gets the signal. *)
Definition cancel_all {C} (e : exn) (g : group C) : group C :=
  {| units := signal <$> units g; queue := queue g;
     collected := collected g; ph := GCancelling e |}.

(** Full fan-in: the group goes to its final state when every unit it
    started has been collected. *)
Definition conclude {C} (g : group C) : group C :=
  if decide (collected g = length (units g)) then
    {| units := units g; queue := queue g; collected := collected g;
       ph := match ph g with
             | GRunning => GSucceeded
             | GCancelling e => GTerminated e
             | p => p
             end |}
  else g.

Definition receive {C} (g : group C) : option (group C) :=
  if returned g then None
  else
    match queue g with
    | [] => None
    | (i, o) :: rest =>
        let g1 := {| units := units g; queue := rest;
                     collected := S (collected g); ph := ph g |} in
        Some (conclude
                match ph g, o with
                | GRunning, Failed e => cancel_all e g1
                | _, _ => g1
                end)
    end.

Definition step {C} (a : action) (g : group C) : option (group C) :=
  match a with
  | Finish i (Ok _) => finish i Succeeded g
  | Finish i (Raise e) => finish i (Failed e) g
  | Stop i =>
      match units g !! i with
      | Some m => if signalled m then finish i Cancelled g else None
      | None => None
      end
  | Receive => receive g
  | Interrupt =>
      match ph g with
      | GRunning => Some (conclude (cancel_all KeyboardInterrupt g))
      | _ => None
      end
  end.

Fixpoint run {C} (acts : list action) (g : group C) : option (group C) :=
  match acts with
  | [] => Some g
  | a :: acts' =>
      match step a g with
      | Some g' => run acts' g'
      | None => None
      end
  end.

(** What the [async with] block gives its caller once the group has
    returned: nothing, or the first error. *)
Definition group_result {C} (g : group C) : option (result unit) :=
  match ph g with
  | GSucceeded => Some (Ok tt)
  | GTerminated e => Some (Raise e)
  | GRunning | GCancelling _ => None
  end.

(** How many units have reached a terminal state. *)
Fixpoint count_ended {C} (l : list (member C)) : nat :=
  match l with
  | [] => 0
  | m :: l' => (if is_running m then 0 else 1) + count_ended l'
  end.

Definition cancelling {C} (g : group C) : bool :=
  match ph g with
  | GCancelling _ | GTerminated _ => true
  | GRunning | GSucceeded => false
  end.

(** The supervisor's bookkeeping: every completion collected or queued is
    one unit in a terminal state; the group is in a final state only with
    every unit collected; and the cancellation signal has gone to nobody
    before the first failure and to every running unit after it. *)
Record fan_in {C} (g : group C) : Prop := {
  fan_in_count : (collected g + length (queue g))%nat = count_ended (units g);
  fan_in_returned : returned g = true → collected g = length (units g);
  fan_in_signal :
    Forall (λ m, if cancelling g then is_running m = true → signalled m = true
                 else signalled m = false) (units g);
}.

(** What the outcomes say: a queued completion is the terminal state of
    its unit; only a signalled unit is cancelled; before the first failure
    is collected every unit that did not succeed still has its completion
    in the queue; and the first error is the interrupt or the error of a
    unit that failed. *)
Record outcomes {C} (g : group C) : Prop := {
  queue_valid :
    ∀ i o, (i, o) ∈ queue g → ∃ m, units g !! i = Some m ∧ st m = Ended o;
  cancelled_signalled :
    Forall (λ m, st m = Ended Cancelled → signalled m = true) (units g);
  clean_phase :
    cancelling g = false →
    ∀ i m o, units g !! i = Some m → st m = Ended o → o ≠ Succeeded →
             (i, o) ∈ queue g;
  first_error :
    ∀ e, ph g = GCancelling e ∨ ph g = GTerminated e →
         e = KeyboardInterrupt ∨ ∃ m, m ∈ units g ∧ st m = Ended (Failed e);
}.

(** The first error the supervisor collects in an interleaving, read off
    the actions alone: completions are posted in the order the units end
    and are taken in that order, one for each [Receive]; the first failure
    taken, or an interrupt before it, is the first error. *)
Fixpoint first_collected (acts : list action) (posted : list outcome) : option exn :=
  match acts with
  | [] => None
  | Finish _ (Ok _) :: acts' => first_collected acts' (posted ++ [Succeeded])
  | Finish _ (Raise e) :: acts' => first_collected acts' (posted ++ [Failed e])
  | Stop _ :: acts' => first_collected acts' (posted ++ [Cancelled])
  | Receive :: acts' =>
      match posted with
      | [] => None
      | Failed e :: _ => Some e
      | _ :: posted' => first_collected acts' posted'
      end
  | Interrupt :: _ => Some KeyboardInterrupt
  end.

(** The group with other callables in its units, everything else alike. *)
Definition with_bodies {C D} (f : C → D) (g : group C) : group D :=
  {| units := (λ m, {| body := f (body m); st := st m; signalled := signalled m |})
                <$> units g;
     queue := queue g; collected := collected g; ph := ph g |}.

End TaskGroup.

(** ** The commands of dev.py *)

(** [build_docs(schema_path)]; [openapi] is what
    [orion_fastapi_app.openapi()] returns. *)
Definition build_docs (P : prefect) (openapi : pydict) (schema_path : option string) : M unit :=
  let schema := openapi in
  let '(target, shown) :=
    match schema_path with
    | None | Some "" =>
        let p := root_path P ++ ["docs"; "api-ref"; "schema.json"] in
        (Absolute p, show_path p)
    | Some s => (Named s, s)
    end in
  let schema := dict_set "info" (JObj []) schema in
  json_dump (JObj schema) target;;
  console_print ("OpenAPI schema written to " ++ shown)%string.

(** [build_ui()] *)
Definition build_ui (P : prefect) : M unit :=
  tmpchdir (root_path P) (
    tmpchdir (root_path P ++ ["orion-ui"]) (
      console_print "Installing npm packages...";;
      check_output ["npm"; "ci"; "install"] None;;
      console_print "Building for distribution...";;
      env ← os_environ_copy;
      let env := <["ORION_UI_SERVE_BASE" := "/"]> env in
      check_output ["npm"; "run"; "build"] (Some env));;
    ex ← os_path_exists (Absolute (ui_static_path P));
    (if ex : bool then
       console_print "Removing existing build files...";;
       rmtree (Absolute (ui_static_path P))
     else mret tt);;
    console_print "Copying build into src...";;
    copytree (Relative ["orion-ui"; "dist"]) (Absolute (ui_static_path P)));;
  console_print "Complete!".

(** [ui()] *)
Definition ui (P : prefect) : M unit :=
  tmpchdir (root_path P) (
    tmpchdir (root_path P ++ ["orion-ui"]) (
      console_print "Installing npm packages...";;
      check_output ["npm"; "install"] None;;
      console_print "Starting UI development server...";;
      open_process_and_stream_output ["npm"; "run"; "serve"] None;;
      mret tt)).

(** The callables [start] hands to the task group: [start_orion] of
    prefect.cli.orion with its keyword arguments, and [ui]. *)
Inductive coroutine :=
| StartOrion (ui agent : bool)
| Ui.

(** [start(agent)]: the task group as it stands when the body of the
    [async with] block is done. *)
Definition start (agent : bool) : TaskGroup.group coroutine :=
  let tg := TaskGroup.create_task_group in
  let tg := TaskGroup.start_soon (StartOrion false agent) tg in
  let tg := TaskGroup.start_soon Ui tg in
  tg.

(** How a suspended command goes on when the processes it awaits exit
    with the given statuses, in a world nobody else has touched. *)
Fixpoint resume {A} (t : task A) (exits : list Z) : option (result A * world) :=
  match t with
  | Return r w => Some (r, w)
  | Await w k =>
      match exits with
      | [] => None
      | rc :: exits' => resume (k rc w) exits'
      end
  end.

(** The world a task stands in: where it returned, or where it waits. *)
Definition world_of {A} (t : task A) : world :=
  match t with
  | Return _ w => w
  | Await w _ => w
  end.

(** What was logged between two worlds of one run. *)
Definition emitted (w w' : world) : list event :=
  drop (length (log w)) (log w').

(** Where [build_docs] writes when it is given no path. *)
Definition default_schema_path (P : prefect) : path :=
  root_path P ++ ["docs"; "api-ref"; "schema.json"].

(** ** Reasoning about commands *)

(** [wp m w Q]: run in [w], the command [m] comes back without suspending,
    with a result and a world that satisfy [Q]. *)
Definition wp {A} (m : M A) (w : world) (Q : result A → world → Prop) : Prop :=
  match m w with
  | Return r w' => Q r w'
  | Await _ _ => False
  end.

(** ** A checkout and its tools, for the examples *)

Definition repo : prefect :=
  {| root_path := ["repo"];
     ui_static_path := ["repo"; "src"; "prefect"; "orion"; "ui"] |}.

Definition checkout_dirs : list path :=
  [ []; ["home"]; ["repo"]; ["repo"; "docs"]; ["repo"; "docs"; "api-ref"];
    ["repo"; "orion-ui"]; ["repo"; "src"]; ["repo"; "src"; "prefect"];
    ["repo"; "src"; "prefect"; "orion"];
    ["repo"; "src"; "prefect"; "orion"; "ui"] ].

(** A checkout with a stale build under the static path. *)
Definition checkout : filesystem :=
  λ q,
    if decide (q ∈ checkout_dirs) then Some Dir
    else if decide (q = ["repo"; "src"; "prefect"; "orion"; "ui"; "stale.js"])
         then Some (File (Text "stale"))
         else None.

(** npm with chosen exit statuses; [npm run build] leaves dist/index.html
    in the directory it runs in. *)
Definition npm (ci install build : Z)
    (cmd : list string) (env : environ) (dir : path) (f : filesystem) : Z * filesystem :=
  if decide (cmd = ["npm"; "ci"; "install"]) then (ci, f)
  else if decide (cmd = ["npm"; "install"]) then (install, f)
  else if decide (cmd = ["npm"; "run"; "build"]) then
    (build,
     λ q, if decide (q = dir ++ ["dist"]) then Some Dir
          else if decide (q = dir ++ ["dist"; "index.html"])
               then Some (File (Text "index"))
               else f q)
  else (0, f).

Definition machine (ci install build : Z) : world :=
  {| cwd := ["home"];
     os_environ := {["PATH" := "/usr/bin"]};
     fs := checkout;
     installed := λ p, bool_decide (p = "npm");
     tools := npm ci install build;
     log := [] |}.

(** A generated schema, for the examples. *)
Definition schema0 : pydict :=
  [("openapi", JStr "3.0.2");
   ("info", JObj [("title", JStr "Prefect Orion"); ("version", JStr "0.1.0")]);
   ("paths", JObj [])].

(** The UI unit fails at its install step, the supervisor collects the
    failure and signals the server unit, the server unit stops, and the
    group returns with both units ended. *)
Definition install_fails : list TaskGroup.action :=
  [TaskGroup.Finish 1 (Raise (CalledProcessError 2 ["npm"; "install"]));
   TaskGroup.Receive; TaskGroup.Stop 0; TaskGroup.Receive].


(** A machine whose npm exits with 0 and writes nothing. *)
Definition machine_idle : world :=
  {| cwd := ["home"];
     os_environ := {["PATH" := "/usr/bin"]};
     fs := checkout;
     installed := λ p, bool_decide (p = "npm");
     tools := λ _ _ _ f, (0, f);
     log := [] |}.

(** Where [build_docs] writes: the default path when [schema_path] is
    omitted or empty, and the given path otherwise. *)
Definition docs_target (P : prefect) (schema_path : option string) : pathlike :=
  match schema_path with
  | None | Some "" => Absolute (default_schema_path P)
  | Some s => Named s
  end.

(** ** kubernetes_manifest: string.Template and the manifest *)

(** [string.Template] of the Python library (3.7 or later, where the
    identifiers of a placeholder are ASCII only).  The text is scanned
    from left to right for the delimiter: [$$] stands for one [$], [$id]
    and [${id}] for the value of [id] in the mapping, with [id] the
    longest run [[_a-zA-Z][_a-zA-Z0-9]*]; any other [$] is an invalid
    placeholder.  The first placeholder in the text that is invalid or
    has no value decides the error; the line and column of the message of
    the ValueError are left out. *)
Module Template.

Inductive error :=
| KeyError (name : string)
| ValueError.

Definition between (lo hi c : ascii) : bool :=
  (N_of_ascii lo <=? N_of_ascii c)%N && (N_of_ascii c <=? N_of_ascii hi)%N.

Definition id_start (c : ascii) : bool :=
  Ascii.eqb c "_" || between "a" "z" c || between "A" "Z" c.

Definition id_char (c : ascii) : bool :=
  id_start c || between "0" "9" c.

(** Where the scan stands: in plain text, after a [$], inside [$id],
    after [${], or inside [${id]. *)
Inductive mode :=
| Literal
| Delimiter
| Named (id : string)
| Opening
| Braced (id : string).

(** The text put out so far, before what the rest of the scan gives. *)
Definition emit (s : string) (rest : error + string) : error + string :=
  match rest with
  | inl e => inl e
  | inr t => inr (s ++ t)%string
  end.

(** [str(mapping[named])], before what the rest of the scan gives. *)
Definition convert (mapping : gmap string string) (id : string)
    (rest : error + string) : error + string :=
  match mapping !! id with
  | None => inl (KeyError id)
  | Some v => emit v rest
  end.

Fixpoint sub (mapping : gmap string string) (md : mode) (s : string) : error + string :=
  match s with
  | EmptyString =>
      match md with
      | Literal => inr ""
      | Named id => convert mapping id (inr "")
      | Delimiter | Opening | Braced _ => inl ValueError
      end
  | String c s' =>
      match md with
      | Literal =>
          if Ascii.eqb c "$" then sub mapping Delimiter s'
          else emit (String c "") (sub mapping Literal s')
      | Delimiter =>
          if Ascii.eqb c "$" then emit "$" (sub mapping Literal s')
          else if id_start c then sub mapping (Named (String c "")) s'
          else if Ascii.eqb c "{" then sub mapping Opening s'
          else inl ValueError
      | Named id =>
          if id_char c then sub mapping (Named (id ++ String c "")%string) s'
          else
            convert mapping id
              (if Ascii.eqb c "$" then sub mapping Delimiter s'
               else emit (String c "") (sub mapping Literal s'))
      | Opening =>
          if id_start c then sub mapping (Braced (String c "")) s'
          else inl ValueError
      | Braced id =>
          if id_char c then sub mapping (Braced (id ++ String c "")%string) s'
          else if Ascii.eqb c "}" then convert mapping id (sub mapping Literal s')
          else inl ValueError
      end
  end.

(** [Template(template).substitute(mapping)] *)
Definition substitute (template : string) (mapping : gmap string string) : error + string :=
  sub mapping Literal template.

(** A template as its author composes it: text without a delimiter,
    escaped delimiters and placeholders in either form. *)
Inductive piece :=
| Chars (s : string)
| Escape
| Name (id : string)
| Brace (id : string).

Definition render_piece (p : piece) : string :=
  match p with
  | Chars s => s
  | Escape => "$$"
  | Name id => "$" ++ id
  | Brace id => "${" ++ id ++ "}"
  end%string.

Fixpoint render (ps : list piece) : string :=
  match ps with
  | [] => ""
  | p :: ps' => (render_piece p ++ render ps')%string
  end.

Fixpoint plain (s : string) : bool :=
  match s with
  | EmptyString => true
  | String c s' => negb (Ascii.eqb c "$") && plain s'
  end.

Fixpoint id_chars (s : string) : bool :=
  match s with
  | EmptyString => true
  | String c s' => id_char c && id_chars s'
  end.

Definition identifier (id : string) : bool :=
  match id with
  | EmptyString => false
  | String c s => id_start c && id_chars s
  end.

Definition starts_id (s : string) : bool :=
  match s with
  | EmptyString => false
  | String c _ => id_char c
  end.

(** The pieces read back as they were written: the text holds no
    delimiter, the names are identifiers, and no [$id] runs into text
    that would go on as its name. *)
Fixpoint well_formed (ps : list piece) : bool :=
  match ps with
  | [] => true
  | Chars s :: ps' => plain s && well_formed ps'
  | Escape :: ps' => well_formed ps'
  | Name id :: ps' => identifier id && negb (starts_id (render ps')) && well_formed ps'
  | Brace id :: ps' => identifier id && well_formed ps'
  end.

Definition names (ps : list piece) : list string :=
  omap (λ p, match p with Name id | Brace id => Some id | _ => None end) ps.

(** The pieces with every placeholder filled in from the mapping. *)
Fixpoint fill (mapping : gmap string string) (ps : list piece) : string :=
  match ps with
  | [] => ""
  | Chars s :: ps' => s ++ fill mapping ps'
  | Escape :: ps' => "$" ++ fill mapping ps'
  | Name id :: ps' | Brace id :: ps' => default "" (mapping !! id) ++ fill mapping ps'
  end%string.

(** The pieces with every placeholder converted in its turn, before what
    the text after them gives. *)
Fixpoint expand (mapping : gmap string string) (ps : list piece)
    (rest : error + string) : error + string :=
  match ps with
  | [] => rest
  | Chars s :: ps' => emit s (expand mapping ps' rest)
  | Escape :: ps' => emit "$" (expand mapping ps' rest)
  | Name id :: ps' | Brace id :: ps' => convert mapping id (expand mapping ps' rest)
  end.

End Template.

(** What [kubernetes_manifest] can fail with: an error of the operating
    system while the template is read, or an error of the substitution. *)
Inductive failure :=
| OSError (e : exn)
| TemplateError (e : Template.error).

(** [Path.read_text()]; [dumps] is the text of a file that holds a
    document written by [json.dump]. *)
Definition read_text (dumps : json → string) (p : path) (w : world) : result string :=
  match fs w p with
  | Some (File (Text s)) => Ok s
  | Some (File (Document d)) => Ok (dumps d)
  | Some Dir => Raise (IsADirectoryError p)
  | None =>
      if existsb (λ a, is_file (fs w a)) (ancestors p)
      then Raise (NotADirectoryError p)
      else Raise (FileNotFoundError p)
  end.

(** [str(p)] for an absolute path. *)
Definition path_str (p : path) : string :=
  match p with
  | [] => "/"
  | _ => show_path p
  end.

(** The template of the development manifest, below the package. *)
Definition manifest_template (module_path : path) : path :=
  module_path ++ ["cli"; "templates"; "kubernetes-dev.yaml"].

(** [kubernetes_manifest()]; [module_path] is [prefect.__module_path__]
    and [image_name] is what [get_prefect_image_name()] returns. *)
Definition kubernetes_manifest (dumps : json → string) (module_path : path)
    (image_name : string) (P : prefect) (w : world) : (failure + unit) * world :=
  match read_text dumps (manifest_template module_path) w with
  | Raise e => (inl (OSError e), w)
  | Ok text =>
      let template := text in
      match
        Template.substitute template
          {[ "prefect_root_directory" := path_str (root_path P);
             "image_name" := image_name ]}
      with
      | inl e => (inl (TemplateError e), w)
      | inr manifest => (inr tt, record (Printed manifest) w)
      end
  end.

(** The checkout with a template of the manifest in the package. *)
Definition packaged (template : string) : world :=
  set_fs (λ q, if decide (q = manifest_template ["repo"; "src"; "prefect"])
               then Some (File (Text template)) else checkout q)
         machine_idle.

(** ** The units of start as commands *)

(** The completion unit [i] posts when its coroutine has come back. *)
Definition completion (i : nat) (t : task unit) : option TaskGroup.action :=
  (λ rw, TaskGroup.Finish i rw.1) <$> run_sync t.



(** The same callable with another value of the [agent] option. *)
Definition set_agent (agent : bool) (c : coroutine) : coroutine :=
  match c with
  | StartOrion ui _ => StartOrion ui agent
  | Ui => Ui
  end.

(** Modelled from the spec: the launch of a companion process that runs
    alongside its parent (section 6), which the code under src/ does not
    have: the process is started with the inherited environment, fails
    fast when the executable is missing (section 4.1), and is not waited
    for. *)
Definition launch_alongside (cmd : list string) : M unit :=
  λ w,
    if installed w (program cmd)
    then Return (Ok tt) (record (Opened cmd (os_environ w) (cwd w)) w)
    else Return (Raise (FileNotFoundError [program cmd])) w.

(** Modelled from the spec: [start_orion] of prefect.cli.orion, which is
    not under src/: the application-server unit of section 4.4, an opaque
    external process launched by its argument list and waited for
    (section 1), with the auxiliary companion process, the agent, launched
    alongside it when the option is set (section 6); a non-zero exit of
    the server is the unit's failure and carries the code (section 7).
    The two argument lists are not in the spec and are parameters; the
    spec says nothing of the [ui] argument, which is carried and not
    used. *)
Definition start_orion (server companion : list string) (ui agent : bool) : M unit :=
  (if agent then launch_alongside companion else mret tt);;
  rc ← open_process_and_stream_output server None;
  if decide (rc = 0) then mret tt else raise (CalledProcessError rc server).

(** The command a callable of the task group stands for. *)
Definition unit_command (server companion : list string) (P : prefect)
    (c : coroutine) : M unit :=
  match c with
  | StartOrion u agent => start_orion server companion u agent
  | Ui => ui P
  end.

(** The processes a command has opened by the time it returns or first
    waits. *)
Definition opened (m : M unit) (w : world) : list (list string) :=
  omap (λ e, match e with Opened cmd _ _ => Some cmd | _ => None end)
       (emitted w (world_of (m w))).

(** A machine on which every program can be launched. *)
Definition machine_full : world :=
  {| cwd := ["home"];
     os_environ := {["PATH" := "/usr/bin"]};
     fs := checkout;
     installed := λ _, true;
     tools := λ _ _ _ f, (0, f);
     log := [] |}.

(** * Properties *)

(** ** Reasoning about commands *)

Lemma wp_elim {A} (m : M A) w Q r w' :
  wp m w Q → m w = Return r w' → Q r w'.
Proof. unfold wp. intros H E. by rewrite E in H. Qed.

Lemma wp_returns {A} (m : M A) w Q :
  wp m w Q → ∃ r w', m w = Return r w' ∧ Q r w'.
Proof. unfold wp. destruct (m w); [eauto | done]. Qed.

Lemma wp_mono {A} (m : M A) w (Q Q' : result A → world → Prop) :
  (∀ r w', Q r w' → Q' r w') → wp m w Q → wp m w Q'.
Proof. unfold wp. destruct (m w); auto. Qed.

Lemma wp_ret {A} (a : A) w (Q : result A → world → Prop) :
  Q (Ok a) w → wp (mret a) w Q.
Proof. done. Qed.

Lemma wp_bind {A B} (m : M A) (f : A → M B) w Q :
  wp m w (λ r w', match r with
                  | Ok a => wp (f a) w' Q
                  | Raise e => Q (Raise e) w'
                  end) →
  wp (m ≫= f) w Q.
Proof.
  unfold wp, mbind, M_bind. destruct (m w) as [[a | e] w' |]; simpl; auto.
Qed.

Lemma wp_tmpchdir {A} p (body : M A) w Q :
  wp body (set_cwd p w) (λ r w', Q r (set_cwd (cwd w) w')) →
  wp (tmpchdir p body) w Q.
Proof.
  unfold wp, tmpchdir. destruct (body (set_cwd p w)); simpl; auto.
Qed.

Lemma wp_console_print msg w (Q : result unit → world → Prop) :
  Q (Ok tt) (record (Printed msg) w) → wp (console_print msg) w Q.
Proof. done. Qed.

Lemma wp_os_environ_copy w (Q : result environ → world → Prop) :
  Q (Ok (os_environ w)) w → wp os_environ_copy w Q.
Proof. done. Qed.

Lemma wp_check_output cmd env w (Q : result unit → world → Prop) :
  (installed w (program cmd) = false →
   Q (Raise (FileNotFoundError [program cmd])) w) →
  (∀ fs',
     installed w (program cmd) = true →
     tools w cmd (default (os_environ w) env) (cwd w) (fs w) = (0, fs') →
     Q (Ok tt) (record (Ran cmd (default (os_environ w) env) (cwd w) 0) (set_fs fs' w))) →
  (∀ rc fs',
     installed w (program cmd) = true →
     tools w cmd (default (os_environ w) env) (cwd w) (fs w) = (rc, fs') →
     rc ≠ 0 →
     Q (Raise (CalledProcessError rc cmd))
       (record (Ran cmd (default (os_environ w) env) (cwd w) rc) (set_fs fs' w))) →
  wp (check_output cmd env) w Q.
Proof.
  intros Hno Hok Hfail. unfold wp, check_output.
  destruct (installed w (program cmd)); [| auto].
  destruct (tools w cmd _ _ _) as [rc fs'].
  destruct (decide (rc = 0)) as [-> |]; auto.
Qed.

Lemma wp_os_path_exists pl w (Q : result bool → world → Prop) :
  Q (Ok (bool_decide (is_Some (fs w (resolve w pl))))) w →
  wp (os_path_exists pl) w Q.
Proof. done. Qed.

Lemma wp_rmtree pl w (Q : result unit → world → Prop) :
  (fs w (resolve w pl) = None → Q (Raise (FileNotFoundError (resolve w pl))) w) →
  (∀ c, fs w (resolve w pl) = Some (File c) →
        Q (Raise (NotADirectoryError (resolve w pl))) w) →
  (fs w (resolve w pl) = Some Dir →
   Q (Ok tt) (record (Removed (resolve w pl))
                (set_fs (remove_tree (resolve w pl) (fs w)) w))) →
  wp (rmtree pl) w Q.
Proof.
  intros H1 H2 H3. unfold wp, rmtree.
  destruct (fs w (resolve w pl)) as [[| c] |]; eauto.
Qed.

Lemma wp_copytree srcl dstl w (Q : result unit → world → Prop) :
  (∀ e, Q (Raise e) w) →
  (fs w (resolve w srcl) = Some Dir →
   fs w (resolve w dstl) = None →
   Q (Ok tt) (record (Copied (resolve w srcl) (resolve w dstl))
                (set_fs (copy_tree (resolve w srcl) (resolve w dstl) (fs w)) w))) →
  wp (copytree srcl dstl) w Q.
Proof.
  intros H1 H2. unfold wp, copytree.
  destruct (fs w (resolve w srcl)) as [[| c] |]; auto.
  destruct (fs w (resolve w dstl)); auto.
  destruct (list_find _ _) as [[? ?] |]; auto.
Qed.

Lemma wp_if {A} (b : bool) (m1 m2 : M A) w Q :
  (b = true → wp m1 w Q) → (b = false → wp m2 w Q) →
  wp (if b then m1 else m2) w Q.
Proof. destruct b; auto. Qed.

(** One step of a command, by the rule of its head. *)
Ltac wp_step :=
  lazymatch goal with
  | |- wp (_ ≫= _) _ _ => apply wp_bind
  | |- wp (tmpchdir _ _) _ _ => apply wp_tmpchdir
  | |- wp (console_print _) _ _ => apply wp_console_print
  | |- wp os_environ_copy _ _ => apply wp_os_environ_copy
  | |- wp (check_output _ _) _ _ =>
      apply wp_check_output; [intros ? | intros ? ? ? | intros ? ? ? ? ?]
  | |- wp (os_path_exists _) _ _ => apply wp_os_path_exists
  | |- wp (rmtree _) _ _ => apply wp_rmtree; [intros ? | intros ? ? | intros ?]
  | |- wp (copytree _ _) _ _ => apply wp_copytree; [intros ? | intros ? ?]
  | |- wp (if _ then _ else _) _ _ => apply wp_if; intros ?
  | |- wp (mret _) _ _ => apply wp_ret
  end; cbv beta iota.

Ltac wp_run := repeat wp_step.

(** A leaf reached with contradictory tests is closed. *)
Ltac wp_leaves := simpl in *; try congruence.

Ltac norm_log :=
  unfold emitted in *; simpl in *;
  rewrite <- ?app_assoc, ?drop_app_length in *; simpl in *.

Ltac pick_event :=
  repeat match goal with
         | H : _ ∈ _ :: _ |- _ => apply elem_of_cons in H; destruct H as [H | H]
         | H : _ ∈ [] |- _ => apply elem_of_nil in H; destruct H
         end; simplify_eq.


(** Unfold the primitives and split on every test the command makes. *)
Ltac unfold_cmds :=
  unfold mbind, M_bind, mret, M_ret, console_print, check_output, tmpchdir,
    os_path_exists, rmtree, copytree, os_environ_copy, json_dump,
    open_process_and_stream_output, raise, program in *.

Ltac run_cmd := repeat (unfold_cmds; simpl in *; try case_match).

Ltac find_event :=
  repeat first [apply list_elem_of_here | apply list_elem_of_further].

Lemma build_ui_returns P w : ∃ r w', build_ui P w = Return r w'.
Proof.
  destruct (wp_returns (build_ui P) w (λ _ _, True)) as (r & w' & E & _); [| eauto].
  unfold build_ui. wp_run; exact I.
Qed.


(** ** build_ui and ui: the environment of the children *)

Lemma build_ui_build_env P w r w' env dir rc :
  build_ui P w = Return r w' →
  Ran ["npm"; "run"; "build"] env dir rc ∈ emitted w w' →
  env = <["ORION_UI_SERVE_BASE" := "/"]> (os_environ w).
Proof.
  revert r w'.
  enough (wp (build_ui P) w
            (λ r w', Ran ["npm"; "run"; "build"] env dir rc ∈ emitted w w' →
                     env = <["ORION_UI_SERVE_BASE" := "/"]> (os_environ w))) as H.
  { intros r w' E. exact (wp_elim _ _ _ _ _ H E). }
  unfold build_ui. wp_run.
  all: norm_log; intros Hin; pick_event; reflexivity.
Qed.

(** When the install step has succeeded the build is launched, in
    orion-ui below the project root, with the override applied. *)
Lemma build_ui_runs_build P w r w' :
  build_ui P w = Return r w' →
  installed w "npm" = true →
  (tools w ["npm"; "ci"; "install"] (os_environ w) (root_path P ++ ["orion-ui"]) (fs w)).1 = 0 →
  ∃ rc, Ran ["npm"; "run"; "build"] (<["ORION_UI_SERVE_BASE" := "/"]> (os_environ w))
          (root_path P ++ ["orion-ui"]) rc ∈ emitted w w'.
Proof.
  revert r w'.
  enough (wp (build_ui P) w
            (λ r w',
               installed w "npm" = true →
               (tools w ["npm"; "ci"; "install"] (os_environ w)
                  (root_path P ++ ["orion-ui"]) (fs w)).1 = 0 →
               ∃ rc, Ran ["npm"; "run"; "build"]
                       (<["ORION_UI_SERVE_BASE" := "/"]> (os_environ w))
                       (root_path P ++ ["orion-ui"]) rc ∈ emitted w w')) as H.
  { intros r w' E. exact (wp_elim _ _ _ _ _ H E). }
  unfold build_ui. wp_run.
  all: wp_leaves.
  all: intros Hi Hrc; simpl in *; try congruence.
  all: try (match goal with
            | Ht : tools _ _ _ _ _ = (?rc, _), Hne : ?rc ≠ 0 |- _ =>
                rewrite Ht in Hrc; simpl in Hrc; congruence
            end).
  all: norm_log; eexists; find_event.
Qed.

(** C3: the [npm run build] child of [build_ui] is launched with the
    inherited environment with the override applied.  [build_ui] always
    comes back; every [npm run build] it has run got the override's value
    for the overridden variable and every other variable as in the
    parent; and the child is really launched, in orion-ui below the
    project root, whenever npm can be launched and the install step before
    it exits with 0. *)
Theorem build_ui_child_environment P w :
  ∃ r w', build_ui P w = Return r w' ∧
    (∀ env dir rc,
       Ran ["npm"; "run"; "build"] env dir rc ∈ emitted w w' →
       env !! "ORION_UI_SERVE_BASE" = Some "/" ∧
       ∀ k, k ≠ "ORION_UI_SERVE_BASE" → env !! k = os_environ w !! k) ∧
    (installed w "npm" = true →
     (tools w ["npm"; "ci"; "install"] (os_environ w)
        (root_path P ++ ["orion-ui"]) (fs w)).1 = 0 →
     ∃ env rc,
       Ran ["npm"; "run"; "build"] env (root_path P ++ ["orion-ui"]) rc ∈ emitted w w' ∧
       env !! "ORION_UI_SERVE_BASE" = Some "/" ∧
       ∀ k, k ≠ "ORION_UI_SERVE_BASE" → env !! k = os_environ w !! k).
Proof.
  destruct (build_ui_returns P w) as (r & w' & E).
  exists r, w'. split; [exact E |]. split.
  - intros env dir rc Hin. rewrite (build_ui_build_env _ _ _ _ _ _ _ E Hin).
    split; [apply lookup_insert_eq | intros k Hk; by apply lookup_insert_ne].
  - intros Hi Hrc. destruct (build_ui_runs_build _ _ _ _ E Hi Hrc) as [rc Hin].
    eexists _, rc. split; [exact Hin |].
    split; [apply lookup_insert_eq | intros k Hk; by apply lookup_insert_ne].
Qed.

Lemma build_ui_child_environment_witness :
  ∃ w' env rc,
    build_ui repo (machine 0 0 0) = Return (Ok tt) w' ∧
    Ran ["npm"; "run"; "build"] env ["repo"; "orion-ui"] rc ∈ log w' ∧
    env !! "ORION_UI_SERVE_BASE" = Some "/" ∧
    env !! "PATH" = Some "/usr/bin".
Proof.
  destruct (build_ui_child_environment repo (machine 0 0 0)) as (r & w' & E & _ & Hex).
  destruct Hex as (env & rc & Hin & H1 & H2);
    [vm_compute; reflexivity | vm_compute; reflexivity |].
  assert (r = Ok tt) as ->.
  { assert (∃ w0, build_ui repo (machine 0 0 0) = Return (Ok tt) w0) as [w0 E0]
      by (eexists; vm_compute; reflexivity).
    rewrite E0 in E. by injection E as <- _. }
  exists w', env, rc. split; [exact E |]. split; [exact Hin |].
  split; [exact H1 |]. rewrite H2 by discriminate. vm_compute. reflexivity.
Defined.
Lemma ui_spawn_env P w t cmd env dir :
  ui P w = t →
  (Opened cmd env dir ∈ emitted w (world_of t) ∨
   ∃ rc, Ran cmd env dir rc ∈ emitted w (world_of t)) →
  env = os_environ w.
Proof.
  unfold ui. intros <- Hin.
  run_cmd; norm_log; destruct Hin as [Hin | [rc' Hin]]; pick_event; reflexivity.
Qed.

Lemma ui_opens_watch P w :
  installed w "npm" = true →
  (tools w ["npm"; "install"] (os_environ w) (root_path P ++ ["orion-ui"]) (fs w)).1 = 0 →
  ∃ w1 k, ui P w = Await w1 k ∧
    Opened ["npm"; "run"; "serve"] (os_environ w) (root_path P ++ ["orion-ui"])
      ∈ emitted w w1.
Proof.
  intros Hi Hrc. unfold ui.
  run_cmd; simplify_eq; simpl in *; try congruence.
  eexists _, _. split; [reflexivity |]. norm_log. find_event.
Qed.

(** C4, as the code has it: only [build_ui] sets the override, on its
    [npm run build] child, whose other variables are the parent's; the
    children of [ui] (the install step and the watch process) get the
    parent's environment as it is, so the watch process has the variable
    only when the invoking environment had it.  Both children are really
    launched when npm can be launched and the install step before them
    exits with 0. *)
Theorem override_only_in_build_ui P w :
  (∀ r w' env dir rc,
     build_ui P w = Return r w' →
     Ran ["npm"; "run"; "build"] env dir rc ∈ emitted w w' →
     env = <["ORION_UI_SERVE_BASE" := "/"]> (os_environ w)) ∧
  (∀ w1 k env dir,
     ui P w = Await w1 k →
     Opened ["npm"; "run"; "serve"] env dir ∈ emitted w w1 →
     env = os_environ w) ∧
  (installed w "npm" = true →
   (tools w ["npm"; "ci"; "install"] (os_environ w)
      (root_path P ++ ["orion-ui"]) (fs w)).1 = 0 →
   ∃ r w' rc, build_ui P w = Return r w' ∧
     Ran ["npm"; "run"; "build"] (<["ORION_UI_SERVE_BASE" := "/"]> (os_environ w))
       (root_path P ++ ["orion-ui"]) rc ∈ emitted w w') ∧
  (installed w "npm" = true →
   (tools w ["npm"; "install"] (os_environ w)
      (root_path P ++ ["orion-ui"]) (fs w)).1 = 0 →
   ∃ w1 k, ui P w = Await w1 k ∧
     Opened ["npm"; "run"; "serve"] (os_environ w) (root_path P ++ ["orion-ui"])
       ∈ emitted w w1).
Proof.
  split; [| split; [| split]].
  - intros r w' env dir rc. apply build_ui_build_env.
  - intros w1 k env dir H Hin.
    eapply (ui_spawn_env P w _ _ env dir H). left. exact Hin.
  - intros Hi Hrc. destruct (build_ui_returns P w) as (r & w' & E).
    destruct (build_ui_runs_build _ _ _ _ E Hi Hrc) as [rc Hin]. eauto.
  - apply ui_opens_watch.
Qed.

Lemma override_only_in_build_ui_witness :
  ∃ w1 k env dir,
    ui repo (machine 0 0 0) = Await w1 k ∧
    last (log w1) = Some (Opened ["npm"; "run"; "serve"] env dir) ∧
    env = os_environ (machine 0 0 0).
Proof.
  destruct (override_only_in_build_ui repo (machine 0 0 0)) as (_ & H & _).
  eexists _, _, _, _. split; [vm_compute; reflexivity |].
  split; [vm_compute; reflexivity |].
  eapply H; [vm_compute; reflexivity |].
  apply (list_elem_of_lookup_2 _ 3%nat). vm_compute. reflexivity.
Defined.

(** C4 as stated fails: in a checkout whose invoking environment does not
    set ORION_UI_SERVE_BASE, the watch process [ui] starts does not have
    it either. *)
Lemma ui_watch_lacks_override :
  ∃ w1 k env dir,
    ui repo (machine 0 0 0) = Await w1 k ∧
    last (log w1) = Some (Opened ["npm"; "run"; "serve"] env dir) ∧
    env !! "ORION_UI_SERVE_BASE" = None.
Proof.
  eexists _, _, _, _. split; [vm_compute; reflexivity |].
  split; vm_compute; reflexivity.
Qed.

(** ** ui: install, then watch *)

(** C5: [ui] runs [npm install] to completion first.  When it exits with
    zero the watch process is opened after it, and [ui] is suspended on
    it; when it exits with another status [ui] raises CalledProcessError
    with that status (the command ends with a non-zero exit status) and
    no watch process is ever opened; the same holds when npm cannot be
    launched at all. *)
Theorem ui_install_then_watch P w :
  let dir := root_path P ++ ["orion-ui"] in
  let rc := (tools w ["npm"; "install"] (os_environ w) dir (fs w)).1 in
  (installed w "npm" = true → rc = 0 →
   ∃ w1 k, ui P w = Await w1 k ∧
     emitted w w1 =
       [Printed "Installing npm packages...";
        Ran ["npm"; "install"] (os_environ w) dir 0;
        Printed "Starting UI development server...";
        Opened ["npm"; "run"; "serve"] (os_environ w) dir]) ∧
  (installed w "npm" = true → rc ≠ 0 →
   ∃ w', ui P w = Return (Raise (CalledProcessError rc ["npm"; "install"])) w' ∧
     exit_status (Raise (CalledProcessError rc ["npm"; "install"]) : result unit) ≠ 0 ∧
     emitted w w' =
       [Printed "Installing npm packages...";
        Ran ["npm"; "install"] (os_environ w) dir rc]) ∧
  (installed w "npm" = false →
   ∃ w', ui P w = Return (Raise (FileNotFoundError ["npm"])) w' ∧
     emitted w w' = [Printed "Installing npm packages..."]).
Proof.
  intros dir rc. subst dir rc. unfold ui.
  split; [| split]; intros Hi; [intros Hrc | intros Hrc |].
  - run_cmd; simplify_eq; simpl in *; try congruence.
    eexists _, _. split; [reflexivity |]. by norm_log.
  - run_cmd; simplify_eq; simpl in *; try congruence.
    eexists. split; [reflexivity |]. split; [done |]. by norm_log.
  - run_cmd; simplify_eq.
    eexists. split; [reflexivity |]. by norm_log.
Qed.

Lemma ui_install_then_watch_witness :
  (∃ w1 k, ui repo (machine 0 0 0) = Await w1 k ∧
     emitted (machine 0 0 0) w1 =
       [Printed "Installing npm packages...";
        Ran ["npm"; "install"] (os_environ (machine 0 0 0)) ["repo"; "orion-ui"] 0;
        Printed "Starting UI development server...";
        Opened ["npm"; "run"; "serve"] (os_environ (machine 0 0 0)) ["repo"; "orion-ui"]]) ∧
  (∃ w', ui repo (machine 0 2 0) =
           Return (Raise (CalledProcessError 2 ["npm"; "install"])) w' ∧
     emitted (machine 0 2 0) w' =
       [Printed "Installing npm packages...";
        Ran ["npm"; "install"] (os_environ (machine 0 2 0)) ["repo"; "orion-ui"] 2]).
Proof.
  split.
  - destruct (ui_install_then_watch repo (machine 0 0 0)) as [H _].
    apply H; vm_compute; reflexivity.
  - destruct (ui_install_then_watch repo (machine 0 2 0)) as (_ & H & _).
    destruct H as (w' & H1 & _ & H2);
      [vm_compute; reflexivity | vm_compute; discriminate |].
    exists w'. split; [exact H1 | exact H2].
Defined.


(** ** build_ui: exit status *)


(** C6, as the code has it: [build_ui] waits for each tool it runs and
    always comes back; its exit status is 0 exactly when both npm runs
    exited with 0 and the build was copied, and when a tool exits with
    another status [rc] the command raises CalledProcessError carrying
    [rc] and the tool ends with status 1, whatever [rc] was. *)
Theorem build_ui_exit_status P w :
  ∃ r w', build_ui P w = Return r w' ∧
    (exit_status r = 0 ↔
     ∃ e1 e2 d,
       Ran ["npm"; "ci"; "install"] e1 d 0 ∈ emitted w w' ∧
       Ran ["npm"; "run"; "build"] e2 d 0 ∈ emitted w w' ∧
       Copied (root_path P ++ ["orion-ui"; "dist"]) (ui_static_path P) ∈ emitted w w') ∧
    (∀ cmd env dir rc,
       Ran cmd env dir rc ∈ emitted w w' → rc ≠ 0 →
       r = Raise (CalledProcessError rc cmd) ∧ exit_status r = 1).
Proof.
  apply wp_returns. unfold build_ui. wp_run.
  all: wp_leaves.
  all: norm_log.
  all: split;
    [split; [intros Hst; try discriminate Hst
            | intros (e1 & e2 & d & H1' & H2' & H3'); try reflexivity;
              clear H1' H2'; pick_event]
    | intros cmd env dir rc' Hin Hrc; pick_event; done].
  all: eexists _, _, _; repeat split; find_event.
Qed.

(** C6 as stated fails: when [npm ci install] exits with 2, [build_ui]
    ends with status 1, not 2. *)
Lemma build_ui_status_is_not_the_tools :
  ∃ w', build_ui repo (machine 2 0 0) =
          Return (Raise (CalledProcessError 2 ["npm"; "ci"; "install"])) w' ∧
    (tools (machine 2 0 0) ["npm"; "ci"; "install"]
       (os_environ (machine 2 0 0)) ["repo"; "orion-ui"] (fs (machine 2 0 0))).1 = 2 ∧
    exit_status (Raise (CalledProcessError 2 ["npm"; "ci"; "install"]) : result unit) = 1.
Proof.
  eexists. split; [vm_compute; reflexivity |]. split; vm_compute; reflexivity.
Qed.

(** ** build_ui: the static path after the build *)

Lemma strip_app p r : strip p (p ++ r) = Some r.
Proof. induction p as [| a p IH]; simpl; [done |]. by rewrite decide_True. Qed.

Lemma strip_Some p q r : strip p q = Some r → q = p ++ r.
Proof.
  revert q. induction p as [| a p IH]; intros [| b q]; simpl; try congruence.
  case_decide as Hab; [| done]. intros Hr. subst. f_equal. by apply IH.
Qed.

Lemma strip_None p q : ¬ p `prefix_of` q → strip p q = None.
Proof.
  intros Hn. destruct (strip p q) as [r |] eqn:E; [| done].
  destruct Hn. exists r. by apply strip_Some.
Qed.

Lemma remove_tree_below p f r : remove_tree p f (p ++ r) = None.
Proof.
  unfold remove_tree, is_prefix_b. rewrite bool_decide_eq_true_2; [done |].
  by apply prefix_app_r.
Qed.

Lemma remove_tree_outside p f q : ¬ p `prefix_of` q → remove_tree p f q = f q.
Proof.
  intros Hn. unfold remove_tree, is_prefix_b. by rewrite bool_decide_eq_false_2.
Qed.

Lemma copy_tree_below src dst f r : copy_tree src dst f (dst ++ r) = f (src ++ r).
Proof. unfold copy_tree. by rewrite strip_app. Qed.

Lemma copy_tree_keeps src dst f q n :
  ¬ dst `prefix_of` q → f q = Some n → copy_tree src dst f q = Some n.
Proof.
  intros Hn Hq. unfold copy_tree. rewrite strip_None by done.
  destruct (is_prefix_b q dst); by rewrite Hq.
Qed.

(** A tree that is still a directory after [remove_tree p] is not below [p]. *)
Lemma remove_tree_Some p f q n : remove_tree p f q = Some n → ¬ p `prefix_of` q.
Proof.
  unfold remove_tree, is_prefix_b. case_bool_decide; [done | auto].
Qed.

Lemma prefix_app_cases (p q r : path) :
  p `prefix_of` q ++ r → p `prefix_of` q ∨ q `prefix_of` p.
Proof.
  intros H. eapply prefix_weak_total; [exact H |]. by apply prefix_app_r.
Qed.

(** C10: after a run of [build_ui] that succeeds, what stands below the
    static path is exactly what the build left below orion-ui/dist
    (anything that was there before is gone), and nothing outside the
    static path is lost.  When the static path existed after the build
    step it was removed before the copy; when it did not, nothing was
    removed and the copy was made all the same.  (The static path is not
    inside orion-ui/dist.) *)
Theorem build_ui_static_fresh P w w' :
  let dir := root_path P ++ ["orion-ui"] in
  let dist := root_path P ++ ["orion-ui"; "dist"] in
  let static := ui_static_path P in
  let fs1 := (tools w ["npm"; "ci"; "install"] (os_environ w) dir (fs w)).2 in
  let built :=
    (tools w ["npm"; "run"; "build"]
       (<["ORION_UI_SERVE_BASE" := "/"]> (os_environ w)) dir fs1).2 in
  ¬ (dist `prefix_of` static) →
  build_ui P w = Return (Ok tt) w' →
  (∀ r, fs w' (static ++ r) = built (dist ++ r)) ∧
  (∀ q n, ¬ (static `prefix_of` q) → built q = Some n → fs w' q = Some n) ∧
  (is_Some (built static) →
   ∃ pre, emitted w w' =
            pre ++ [Printed "Removing existing build files...";
                    Removed static;
                    Printed "Copying build into src...";
                    Copied dist static;
                    Printed "Complete!"]) ∧
  (built static = None →
   (Removed static ∉ emitted w w') ∧ (Copied dist static ∈ emitted w w')).
Proof.
  intros dir dist static fs1 built Hout.
  enough (wp (build_ui P) w (λ r w', r = Ok tt →
    (∀ r, fs w' (static ++ r) = built (dist ++ r)) ∧
    (∀ q n, ¬ (static `prefix_of` q) → built q = Some n → fs w' q = Some n) ∧
    (is_Some (built static) →
     ∃ pre, emitted w w' =
              pre ++ [Printed "Removing existing build files...";
                      Removed static;
                      Printed "Copying build into src...";
                      Copied dist static;
                      Printed "Complete!"]) ∧
    (built static = None →
     (Removed static ∉ emitted w w') ∧ (Copied dist static ∈ emitted w w')))) as H.
  { intros E. exact (wp_elim _ _ _ _ _ H E eq_refl). }
  subst dir dist static fs1 built. unfold build_ui. wp_run.
  all: wp_leaves.
  all: intros _.
  all: repeat match goal with
         | H : tools _ _ _ _ _ = _ |- _ => rewrite H in *; clear H; simpl in *
         end.
  - (* the static path existed: removed, then copied *)
    assert (∀ r, ¬ (ui_static_path P `prefix_of` (root_path P ++ ["orion-ui"; "dist"]) ++ r))
      as Hdist.
    { intros r [Hp | Hp]%prefix_app_cases; [| by apply Hout].
      by apply (remove_tree_Some _ _ _ _ H5). }
    split; [| split; [| split]].
    + intros r. rewrite copy_tree_below. by apply remove_tree_outside.
    + intros q n Hq Hb. apply copy_tree_keeps; [done |].
      by rewrite remove_tree_outside.
    + intros _. norm_log. by eexists [_; _; _; _].
    + intros Hn. congruence.
  - (* no static path: nothing to remove *)
    apply bool_decide_eq_false_1 in H3.
    split; [| split; [| split]].
    + intros r. by rewrite copy_tree_below.
    + intros q n Hq Hb. by apply copy_tree_keeps.
    + intros Hs. by destruct H3.
    + intros _. norm_log. split; [intros Hin; pick_event | find_event].
Qed.

Lemma build_ui_static_fresh_witness :
  let w' := world_of (build_ui repo (machine 0 0 0)) in
  fs w' ["repo"; "src"; "prefect"; "orion"; "ui"; "index.html"] = Some (File (Text "index")) ∧
  fs w' ["repo"; "src"; "prefect"; "orion"; "ui"; "stale.js"] = None ∧
  fs (machine 0 0 0) ["repo"; "src"; "prefect"; "orion"; "ui"; "stale.js"]
    = Some (File (Text "stale")).
Proof.
  intros w'.
  destruct (build_ui_static_fresh repo (machine 0 0 0) w') as (H1 & _).
  - vm_compute. intros [k Hk]. discriminate Hk.
  - vm_compute. reflexivity.
  - split; [| split].
    + change (fs w' (ui_static_path repo ++ ["index.html"]) = Some (File (Text "index"))).
      rewrite H1. vm_compute. reflexivity.
    + change (fs w' (ui_static_path repo ++ ["stale.js"]) = None).
      rewrite H1. vm_compute. reflexivity.
    + vm_compute. reflexivity.
Defined.

(** ** build_docs: the schema written to disk *)




Lemma locate_resolve w pl p : locate w pl = inr p → p = resolve w pl.
Proof.
  unfold locate. destruct (obstacle_on (fs w) (through w pl)) as [[] |]; try done.
  case_match; [done |]. by intros [= <-].
Qed.




(** ** The task group: full fan-in *)

Section task_group.
Context {C : Type}.
Implicit Types (g : TaskGroup.group C) (m : TaskGroup.member C).
Import TaskGroup.

Lemma count_ended_le (l : list (member C)) : (count_ended l ≤ length l)%nat.
Proof. induction l as [| m l IH]; simpl; [lia |]. destruct (is_running m); lia. Qed.

Lemma count_ended_all (l : list (member C)) :
  count_ended l = length l → Forall (λ m, is_running m = false) l.
Proof.
  induction l as [| m l IH]; simpl; [constructor |].
  pose proof (count_ended_le l) as Hle. destruct (is_running m) eqn:E; [lia |].
  intros Hc. constructor; [done |]. apply IH. lia.
Qed.

Lemma count_ended_insert (l : list (member C)) i m m' :
  l !! i = Some m → is_running m = true → is_running m' = false →
  count_ended (<[i := m']> l) = S (count_ended l).
Proof.
  revert i. induction l as [| x l IH]; intros [| i] Hl Hm Hm'; simpl in *; try done.
  - injection Hl as ->. rewrite Hm, Hm'. lia.
  - rewrite (IH i) by done. lia.
Qed.

Lemma is_running_signal m : is_running (signal m) = is_running m.
Proof. unfold signal. by destruct (is_running m) eqn:E. Qed.

Lemma count_ended_signal (l : list (member C)) :
  count_ended (signal <$> l) = count_ended l.
Proof.
  induction l as [| m l IH]; [done |].
  rewrite fmap_cons. simpl. by rewrite is_running_signal, IH.
Qed.

Lemma conclude_units g : units (conclude g) = units g.
Proof. unfold conclude. by case_decide. Qed.

Lemma conclude_queue g : queue (conclude g) = queue g.
Proof. unfold conclude. by case_decide. Qed.

Lemma conclude_collected g : collected (conclude g) = collected g.
Proof. unfold conclude. by case_decide. Qed.

Lemma conclude_cancelling g : cancelling (conclude g) = cancelling g.
Proof. unfold conclude, cancelling. case_decide; [| done]. simpl. by destruct (ph g). Qed.

Lemma conclude_returned g :
  (returned g = true → collected g = length (units g)) →
  returned (conclude g) = true → collected g = length (units g).
Proof. unfold conclude. by case_decide. Qed.

Lemma fan_in_conclude g : fan_in g → fan_in (conclude g).
Proof.
  intros [H1 H2 H3]. split.
  - by rewrite conclude_collected, conclude_queue, conclude_units.
  - rewrite conclude_collected, conclude_units. by apply conclude_returned.
  - rewrite conclude_units, conclude_cancelling. exact H3.
Qed.

Lemma fan_in_finish g g' i o :
  fan_in g → finish i o g = Some g' → fan_in g'.
Proof.
  intros [H1 H2 H3]. unfold finish.
  destruct (units g !! i) as [m |] eqn:Hi; [| done].
  destruct (is_running m) eqn:Hm; [| done].
  intros [= <-]. split; simpl.
  - rewrite length_app. simpl.
    rewrite (count_ended_insert _ _ m) by done. lia.
  - rewrite length_insert. exact H2.
  - unfold cancelling in *. simpl. apply Forall_insert; [exact H3 |].
    rewrite Forall_lookup in H3. specialize (H3 i m Hi).
    destruct (ph g); simpl in *; try done.
Qed.

Lemma signal_all_signalled (l : list (member C)) :
  Forall (λ m, is_running m = true → signalled m = true) (signal <$> l).
Proof.
  apply Forall_fmap, Forall_true. intros m. simpl. unfold signal.
  destruct (is_running m) eqn:E; simpl; [done |]. by rewrite E.
Qed.

Lemma fan_in_cancel_all g e :
  fan_in g → fan_in (cancel_all e g).
Proof.
  intros [H1 H2 H3]. split; simpl.
  - by rewrite count_ended_signal.
  - done.
  - apply signal_all_signalled.
Qed.

Lemma fan_in_receive g g' : fan_in g → receive g = Some g' → fan_in g'.
Proof.
  intros Hg. unfold receive.
  destruct (returned g) eqn:Hr; [done |].
  destruct (queue g) as [| [i o] rest] eqn:Hq; [done |].
  intros [= <-]. apply fan_in_conclude.
  assert (fan_in {| units := units g; queue := rest;
                    collected := S (collected g); ph := ph g |}) as Hpop.
  { destruct Hg as [H1 H2 H3]. rewrite Hq in H1. simpl in H1.
    split; simpl; [lia | | exact H3].
    unfold returned in *. simpl. by rewrite Hr. }
  destruct (ph g), o; try exact Hpop.
  by apply fan_in_cancel_all.
Qed.

Lemma fan_in_step a g g' : fan_in g → step a g = Some g' → fan_in g'.
Proof.
  intros Hg. destruct a as [i [[] | e] | i | |]; simpl.
  - apply fan_in_finish, Hg.
  - apply fan_in_finish, Hg.
  - destruct (units g !! i) as [m |]; [| done].
    destruct (signalled m); [| done]. apply fan_in_finish, Hg.
  - apply fan_in_receive, Hg.
  - destruct (ph g) eqn:Hp; try done.
    intros [= <-]. by apply fan_in_conclude, fan_in_cancel_all.
Qed.


(** With the bookkeeping in place, a group in a final state has no unit
    that is still running. *)
Lemma fan_in_returned_all_ended g :
  fan_in g → returned g = true → Forall (λ m, is_running m = false) (units g).
Proof.
  intros [H1 H2 H3] Hr. apply count_ended_all.
  pose proof (count_ended_le (units g)) as Hle.
  specialize (H2 Hr). lia.
Qed.

(** The steps never add, drop or swap a unit. *)
Lemma step_bodies a g g' :
  step a g = Some g' → body <$> units g' = body <$> units g.
Proof.
  assert (∀ i o g1, finish i o g = Some g1 → body <$> units g1 = body <$> units g) as Hfin.
  { intros i o g1. unfold finish.
    destruct (units g !! i) as [m |] eqn:Hi; [| done].
    destruct (is_running m); [| done]. intros [= <-]. simpl.
    rewrite list_fmap_insert. simpl. by apply list_insert_id, list_lookup_fmap_Some_2. }
  assert (∀ l : list (member C), body <$> (signal <$> l) = body <$> l) as Hsig.
  { intros l. rewrite <- list_fmap_compose. apply list_fmap_ext.
    intros ? m _. simpl. unfold signal. by destruct (is_running m). }
  destruct a as [i [[] | e] | i | |]; simpl.
  - apply Hfin.
  - apply Hfin.
  - destruct (units g !! i) as [m |]; [| done].
    destruct (signalled m); [| done]. apply Hfin.
  - unfold receive. destruct (returned g); [done |].
    destruct (queue g) as [| [i o] rest]; [done |].
    intros [= <-]. rewrite conclude_units.
    destruct (ph g), o; simpl; by rewrite ?Hsig.
  - destruct (ph g); try done. intros [= <-].
    rewrite conclude_units. simpl. apply Hsig.
Qed.

Lemma run_bodies acts g g' :
  run acts g = Some g' → body <$> units g' = body <$> units g.
Proof.
  revert g. induction acts as [| a acts IH]; intros g; simpl.
  - by intros [= <-].
  - destruct (step a g) as [g1 |] eqn:Hs; [| done].
    intros Hr. rewrite (IH _ Hr). by eapply step_bodies.
Qed.

End task_group.

Lemma start_fan_in agent : TaskGroup.fan_in (start agent).
Proof. split; simpl; [done | done | repeat constructor]. Qed.



(** ** The task group: outcomes *)

Section task_group_outcomes.
Context {C : Type}.
Implicit Types (g : TaskGroup.group C) (m : TaskGroup.member C).
Import TaskGroup.

Lemma st_signal m : st (signal m) = st m.
Proof. unfold signal. by destruct (is_running m). Qed.

Lemma outcomes_conclude g : outcomes g → outcomes (conclude g).
Proof.
  intros [H1 H2 H3 H4]. split.
  - rewrite conclude_queue, conclude_units. exact H1.
  - rewrite conclude_units. exact H2.
  - rewrite conclude_cancelling, conclude_queue, conclude_units. exact H3.
  - intros e He. rewrite conclude_units. apply H4.
    unfold conclude in He. case_decide; [| done]. simpl in He.
    destruct (ph g); destruct He as [He | He]; try done; injection He as ->; auto.
Qed.

Lemma outcomes_cancel_all g e :
  (∀ i o, (i, o) ∈ queue g → ∃ m, units g !! i = Some m ∧ st m = Ended o) →
  Forall (λ m, st m = Ended Cancelled → signalled m = true) (units g) →
  (e = KeyboardInterrupt ∨ ∃ m, m ∈ units g ∧ st m = Ended (Failed e)) →
  outcomes (cancel_all e g).
Proof.
  intros H1 H2 He. split; simpl.
  - intros i o Hin. destruct (H1 i o Hin) as (m & Hm & Hst).
    exists (signal m). rewrite list_lookup_fmap, Hm. by rewrite st_signal.
  - apply Forall_fmap. eapply Forall_impl; [exact H2 |].
    intros m Hm. simpl. rewrite st_signal. unfold signal.
    destruct (is_running m) eqn:E; [done | exact Hm].
  - done.
  - intros e' [[= <-] | [=]]. destruct He as [-> | (m & Hm & Hst)]; [by left | right].
    exists (signal m). split; [by apply list_elem_of_fmap_2 | by rewrite st_signal].
Qed.

Lemma outcomes_finish g g' i o :
  outcomes g →
  (∀ m, units g !! i = Some m → o = Cancelled → signalled m = true) →
  finish i o g = Some g' → outcomes g'.
Proof.
  intros [H1 H2 H3 H4] Hsig. unfold finish.
  destruct (units g !! i) as [m |] eqn:Hi; [| done].
  destruct (is_running m) eqn:Hm; [| done].
  assert (∀ j m' o', units g !! j = Some m' → st m' = Ended o' → j ≠ i) as Hne.
  { intros j m' o' Hj Hst ->. rewrite Hi in Hj. injection Hj as <-.
    unfold is_running in Hm. by rewrite Hst in Hm. }
  intros [= <-]. split; simpl.
  - intros j o' [Hin | Heq%list_elem_of_singleton]%elem_of_app.
    + destruct (H1 j o' Hin) as (m' & Hj & Hst). exists m'.
      rewrite list_lookup_insert_ne; [done |]. intros <-. by eapply Hne.
    + injection Heq as -> ->. eexists. rewrite list_lookup_insert_eq by (by eapply lookup_lt_Some). done.
  - apply Forall_insert; [exact H2 |]. simpl. intros [= ->]. by apply Hsig.
  - intros Hc j m' o' Hj Hst Ho. apply elem_of_app.
    destruct (decide (j = i)) as [-> | Hji].
    + right. rewrite list_lookup_insert_eq in Hj by (by eapply lookup_lt_Some).
      injection Hj as <-. simpl in Hst. injection Hst as <-.
      by apply list_elem_of_singleton.
    + left. rewrite list_lookup_insert_ne in Hj by done. by eapply H3.
  - intros e He. destruct (H4 e He) as [-> | (m' & Hin & Hst)]; [by left | right].
    exists m'. split; [| done].
    apply list_elem_of_lookup in Hin as [j Hj].
    apply (list_elem_of_lookup_2 _ j). rewrite list_lookup_insert_ne; [done |].
    intros <-. by eapply Hne.
Qed.

Lemma outcomes_pop g i o rest :
  outcomes g → queue g = (i, o) :: rest →
  (cancelling g = false → o = Succeeded) →
  outcomes {| units := units g; queue := rest;
              collected := S (collected g); ph := ph g |}.
Proof.
  intros [H1 H2 H3 H4] Hq Ho. split; simpl.
  - intros j o' Hin. apply H1. rewrite Hq. by right.
  - exact H2.
  - intros Hc j m' o' Hj Hst Hne.
    specialize (H3 Hc j m' o' Hj Hst Hne). rewrite Hq in H3.
    apply elem_of_cons in H3 as [[= -> ->] | H3]; [| exact H3].
    by destruct Hne, (Ho Hc).
  - exact H4.
Qed.

Lemma outcomes_receive g g' :
  fan_in g → outcomes g → receive g = Some g' → outcomes g'.
Proof.
  intros [F1 F2 F3] Hg. unfold receive.
  destruct (returned g) eqn:Hr; [done |].
  destruct (queue g) as [| [i o] rest] eqn:Hq; [done |].
  intros [= <-]. apply outcomes_conclude.
  pose proof Hg as [H1 H2 H3 H4].
  destruct (H1 i o) as (mi & Hi & Hsti); [rewrite Hq; left |].
  pose proof (outcomes_pop g i o rest Hg Hq) as Hpop.
  unfold returned in Hr. unfold cancelling in *.
  destruct (ph g) eqn:Hp; try discriminate Hr.
  - (* no failure collected so far *)
    destruct o as [| e |].
    + by apply Hpop.
    + apply (outcomes_cancel_all {| units := units g; queue := rest;
                                    collected := S (collected g); ph := GRunning |}); simpl.
      * intros j o' Hin. apply H1. rewrite Hq. by right.
      * exact H2.
      * right. exists mi. split; [by eapply list_elem_of_lookup_2 | done].
    + rewrite Forall_lookup in F3, H2.
      specialize (F3 i mi Hi). specialize (H2 i mi Hi Hsti). simpl in *. congruence.
  - (* cancelling: the rest is drained *)
    destruct o; by apply Hpop.
Qed.

Lemma outcomes_step a g g' :
  fan_in g → outcomes g → step a g = Some g' → outcomes g'.
Proof.
  intros Hf Hg. destruct a as [i [[] | e] | i | |]; simpl.
  - intros Hs. eapply outcomes_finish; [exact Hg | | exact Hs]. done.
  - intros Hs. eapply outcomes_finish; [exact Hg | | exact Hs]. done.
  - destruct (units g !! i) as [m |] eqn:Hi; [| done].
    destruct (signalled m) eqn:Hm; [| done].
    intros Hs. eapply outcomes_finish; [exact Hg | | exact Hs].
    intros m' Hm' _. rewrite Hi in Hm'. by injection Hm' as <-.
  - by apply outcomes_receive.
  - destruct (ph g) eqn:Hp; try done. intros [= <-].
    destruct Hg as [H1 H2 H3 H4].
    apply outcomes_conclude, outcomes_cancel_all; auto.
Qed.

Lemma invariants_run acts g g' :
  fan_in g → outcomes g → run acts g = Some g' → fan_in g' ∧ outcomes g'.
Proof.
  revert g. induction acts as [| a acts IH]; intros g Hf Hg; simpl.
  - by intros [= <-].
  - destruct (step a g) as [g1 |] eqn:Hs; [| done].
    apply IH; [by eapply fan_in_step | by eapply outcomes_step].
Qed.

(** A group that ended without an error has seen every unit succeed. *)
Lemma succeeded_all_succeeded g :
  fan_in g → outcomes g → ph g = GSucceeded →
  Forall (λ m, st m = Ended Succeeded) (units g).
Proof.
  intros Hf [H1 H2 H3 H4] Hp.
  assert (returned g = true) as Hr by (unfold returned; by rewrite Hp).
  pose proof (fan_in_returned_all_ended g Hf Hr) as Hall.
  destruct Hf as [F1 F2 F3]. specialize (F2 Hr).
  pose proof (count_ended_le (units g)) as Hle.
  assert (queue g = []) as Hq by (apply length_zero_iff_nil; lia).
  rewrite Forall_lookup in Hall. apply Forall_lookup. intros i m Hi.
  specialize (Hall i m Hi). unfold is_running in Hall.
  destruct (st m) as [| o] eqn:Hst; [done |].
  assert (cancelling g = false) as Hc by (unfold cancelling; by rewrite Hp).
  destruct o as [| e |]; [done | |];
    (exfalso; eapply elem_of_nil; rewrite <- Hq; by eapply (H3 Hc i m)).
Qed.

End task_group_outcomes.

(** ** The task group: the first error, and getting to the end *)

Section task_group_first_error.
Context {C : Type}.
Import TaskGroup.
Implicit Types (g : group C) (e : exn).

Local Abbreviation phase_of_error e p := (p = GCancelling e ∨ p = GTerminated e).

Lemma conclude_phase g :
  match ph g with
  | GRunning => ph (conclude g) = GRunning ∨ ph (conclude g) = GSucceeded
  | GCancelling e => phase_of_error e (ph (conclude g))
  | p => ph (conclude g) = p
  end.
Proof.
  unfold conclude.
  case_decide; simpl; destruct (ph g); auto.
Qed.

Lemma finish_shape i o g g' :
  finish i o g = Some g' →
  ph g' = ph g ∧ queue g' = queue g ++ [(i, o)] ∧ collected g' = collected g ∧
  length (units g') = length (units g).
Proof.
  unfold finish. destruct (units g !! i) as [m |]; [| done].
  destruct (is_running m); [| done]. intros [= <-]. simpl.
  by rewrite length_insert.
Qed.

Lemma step_stop_shape i g g' :
  step (Stop i) g = Some g' → finish i Cancelled g = Some g'.
Proof.
  simpl. destruct (units g !! i) as [m |]; [| done]. by destruct (signalled m).
Qed.

(** A group that has returned takes no further completion, and posting
    one changes neither its phase nor what was collected. *)
Lemma run_succeeded_stays acts g g' :
  ph g = GSucceeded → run acts g = Some g' →
  ph g' = GSucceeded ∧ ∀ posted, first_collected acts posted = None.
Proof.
  revert g. induction acts as [| a acts IH]; intros g Hp Hrun.
  - injection Hrun as <-. done.
  - simpl in Hrun. destruct (step a g) as [g1 |] eqn:Hs; [| done].
    destruct a as [i [[] | e] | i | |]; simpl in Hs.
    + destruct (finish_shape _ _ _ _ Hs) as (H1 & _).
      destruct (IH g1) as [H2 H3]; [congruence | done |]. split; [done |].
      intros posted. simpl. apply H3.
    + destruct (finish_shape _ _ _ _ Hs) as (H1 & _).
      destruct (IH g1) as [H2 H3]; [congruence | done |]. split; [done |].
      intros posted. simpl. apply H3.
    + destruct (finish_shape _ _ _ _ (step_stop_shape _ _ _ Hs)) as (H1 & _).
      destruct (IH g1) as [H2 H3]; [congruence | done |]. split; [done |].
      intros posted. simpl. apply H3.
    + unfold receive, returned in Hs. by rewrite Hp in Hs.
    + by rewrite Hp in Hs.
Qed.

(** Once an error is the group's first error it stays the first error. *)
Lemma run_error_stays acts g g' e :
  phase_of_error e (ph g) → run acts g = Some g' → phase_of_error e (ph g').
Proof.
  revert g. induction acts as [| a acts IH]; intros g Hp Hrun.
  - by injection Hrun as <-.
  - simpl in Hrun. destruct (step a g) as [g1 |] eqn:Hs; [| done].
    apply (IH g1); [| done].
    destruct a as [i [[] | e'] | i | |]; simpl in Hs.
    + destruct (finish_shape _ _ _ _ Hs) as (H1 & _). by rewrite H1.
    + destruct (finish_shape _ _ _ _ Hs) as (H1 & _). by rewrite H1.
    + destruct (finish_shape _ _ _ _ (step_stop_shape _ _ _ Hs)) as (H1 & _).
      by rewrite H1.
    + unfold receive, returned in Hs.
      destruct Hp as [Hp | Hp]; rewrite Hp in Hs; [| done].
      destruct (queue g) as [| [i o] rest]; [done |].
      injection Hs as <-.
      match goal with
      | |- phase_of_error e (ph (conclude ?x)) =>
          pose proof (conclude_phase x) as Hc; simpl in Hc
      end.
      destruct o; exact Hc.
    + destruct Hp as [Hp | Hp]; by rewrite Hp in Hs.
Qed.

(** The first error of the group is the first error collected in the
    interleaving, and there is none when none was collected. *)
Lemma run_first_collected acts g g' :
  ph g = GRunning → run acts g = Some g' →
  match first_collected acts (snd <$> queue g) with
  | Some e => phase_of_error e (ph g')
  | None => ph g' = GRunning ∨ ph g' = GSucceeded
  end.
Proof.
  revert g. induction acts as [| a acts IH]; intros g Hp Hrun.
  - injection Hrun as <-. simpl. auto.
  - simpl in Hrun. destruct (step a g) as [g1 |] eqn:Hs; [| done].
    destruct a as [i [[] | e'] | i | |]; simpl in Hs.
    + destruct (finish_shape _ _ _ _ Hs) as (H1 & H2 & _).
      specialize (IH g1). rewrite H1, H2, fmap_app in IH. by apply IH.
    + destruct (finish_shape _ _ _ _ Hs) as (H1 & H2 & _).
      specialize (IH g1). rewrite H1, H2, fmap_app in IH. by apply IH.
    + destruct (finish_shape _ _ _ _ (step_stop_shape _ _ _ Hs)) as (H1 & H2 & _).
      specialize (IH g1). rewrite H1, H2, fmap_app in IH. by apply IH.
    + unfold receive, returned in Hs. rewrite Hp in Hs.
      destruct (queue g) as [| [i o] rest] eqn:Hq; [done |].
      injection Hs as <-. simpl.
      match type of Hrun with
      | run acts (conclude ?x) = _ =>
          pose proof (conclude_phase x) as Hc; simpl in Hc
      end.
      destruct o as [| e' |]; simpl in Hc.
      * destruct Hc as [Hc | Hc].
        -- specialize (IH _ Hc Hrun). by rewrite conclude_queue in IH.
        -- destruct (run_succeeded_stays _ _ _ Hc Hrun) as [H1 H2].
           rewrite H2. auto.
      * by apply (run_error_stays _ _ _ _ Hc Hrun).
      * destruct Hc as [Hc | Hc].
        -- specialize (IH _ Hc Hrun). by rewrite conclude_queue in IH.
        -- destruct (run_succeeded_stays _ _ _ Hc Hrun) as [H1 H2].
           rewrite H2. auto.
    + rewrite Hp in Hs. injection Hs as <-. simpl.
      match type of Hrun with
      | run acts (conclude ?x) = _ =>
          pose proof (conclude_phase x) as Hc; simpl in Hc
      end.
      by apply (run_error_stays _ _ _ _ Hc Hrun).
Qed.



(** The group has returned as soon as it has collected every unit. *)
Lemma conclude_concluded g :
  collected (conclude g) = length (units (conclude g)) → returned (conclude g) = true.
Proof.
  rewrite conclude_units, conclude_collected. intros Hc.
  unfold conclude, returned. rewrite decide_True by done. simpl.
  by destruct (ph g).
Qed.

Lemma run_concluded acts g g' :
  (collected g = length (units g) → returned g = true) →
  run acts g = Some g' →
  collected g' = length (units g') → returned g' = true.
Proof.
  revert g. induction acts as [| a acts IH]; intros g Hg Hrun.
  - by injection Hrun as <-.
  - simpl in Hrun. destruct (step a g) as [g1 |] eqn:Hs; [| done].
    apply (IH g1); [| done].
    assert (∀ i o, finish i o g = Some g1 →
                   collected g1 = length (units g1) → returned g1 = true) as Hfin.
    { intros i o Hf. destruct (finish_shape _ _ _ _ Hf) as (H1 & _ & H3 & H4).
      unfold returned. rewrite H1, H3, H4. exact Hg. }
    destruct a as [i [[] | e'] | i | |]; simpl in Hs.
    + by apply (Hfin i Succeeded).
    + by apply (Hfin i (Failed e')).
    + apply (Hfin i Cancelled). by apply step_stop_shape.
    + unfold receive in Hs. destruct (returned g); [done |].
      destruct (queue g) as [| [k o] rest]; [done |]. injection Hs as <-.
      apply conclude_concluded.
    + destruct (ph g); try done. injection Hs as <-. apply conclude_concluded.
Qed.

Lemma count_ended_none_running (l : list (member C)) :
  Forall (λ m, is_running m = false) l → count_ended l = length l.
Proof.
  induction 1 as [| m l Hm Hl IH]; simpl; [done |]. by rewrite Hm, IH.
Qed.

(** While the group has not returned and all its units have ended, there
    is a completion for the supervisor to take. *)
Lemma fan_in_progress g :
  fan_in g →
  (collected g = length (units g) → returned g = true) →
  returned g = false →
  Forall (λ m, is_running m = false) (units g) →
  ∃ g', receive g = Some g'.
Proof.
  intros [Hc _ _] Hg Hr Hall. unfold receive. rewrite Hr.
  rewrite (count_ended_none_running _ Hall) in Hc.
  destruct (queue g) as [| [i o] rest]; [| eauto].
  simpl in Hc. rewrite Nat.add_0_r in Hc. specialize (Hg Hc). congruence.
Qed.

End task_group_first_error.

(** ** start: the units of the session and the agent option *)

Section task_group_bodies.
Context {C D : Type} (f : C → D).
Import TaskGroup.
Implicit Types (g : group C).

Lemma with_bodies_lookup g i :
  units (with_bodies f g) !! i =
    (λ m, {| body := f (body m); st := st m; signalled := signalled m |}) <$> units g !! i.
Proof. simpl. by rewrite list_lookup_fmap. Qed.

Lemma with_bodies_finish i o g :
  finish i o (with_bodies f g) = with_bodies f <$> finish i o g.
Proof.
  unfold finish. rewrite with_bodies_lookup.
  destruct (units g !! i) as [m |]; simpl; [| done].
  unfold is_running. simpl. destruct (st m); simpl; [| done].
  unfold with_bodies. simpl. f_equal. f_equal.
  by rewrite list_fmap_insert.
Qed.

Lemma with_bodies_conclude g :
  conclude (with_bodies f g) = with_bodies f (conclude g).
Proof.
  unfold conclude. simpl. rewrite length_fmap.
  by case_decide.
Qed.

Lemma with_bodies_cancel_all e g :
  cancel_all e (with_bodies f g) = with_bodies f (cancel_all e g).
Proof.
  unfold cancel_all, with_bodies. simpl. f_equal.
  rewrite <- !list_fmap_compose. apply list_fmap_ext. intros ? m ?. simpl.
  destruct m as [b s sg]. unfold signal, is_running. simpl. by destruct s.
Qed.

Lemma with_bodies_receive g :
  receive (with_bodies f g) = with_bodies f <$> receive g.
Proof.
  unfold receive. change (returned (with_bodies f g)) with (returned g).
  destruct (returned g); [done |]. simpl.
  destruct (queue g) as [| [i o] rest]; simpl; [done |]. f_equal.
  destruct (ph g), o; simpl;
    rewrite <- ?with_bodies_conclude; try reflexivity.
  all: by rewrite <- with_bodies_cancel_all.
Qed.

Lemma with_bodies_step a g :
  step a (with_bodies f g) = with_bodies f <$> step a g.
Proof.
  destruct a as [i [[] | e] | i | |]; simpl.
  - apply with_bodies_finish.
  - apply with_bodies_finish.
  - rewrite list_lookup_fmap. destruct (units g !! i) as [m |]; simpl; [| done].
    destruct (signalled m); [| done]. apply with_bodies_finish.
  - apply with_bodies_receive.
  - destruct (ph g); simpl; try done.
    by rewrite <- with_bodies_conclude, <- with_bodies_cancel_all.
Qed.

Lemma with_bodies_run acts g :
  run acts (with_bodies f g) = with_bodies f <$> run acts g.
Proof.
  revert g. induction acts as [| a acts IH]; intros g; simpl; [done |].
  rewrite with_bodies_step. destruct (step a g) as [g1 |]; simpl; [apply IH | done].
Qed.

End task_group_bodies.

Lemma start_orion_opened server companion u agent w :
  installed w (program server) = true →
  installed w (program companion) = true →
  opened (start_orion server companion u agent) w =
    (if agent then [companion] else []) ++ [server].
Proof.
  intros Hs Hc. unfold opened, start_orion, launch_alongside,
    open_process_and_stream_output, mbind, M_bind, mret, M_ret.
  destruct agent; simpl; rewrite ?Hc, ?Hs; simpl; rewrite ?Hs; simpl.
  - unfold emitted. simpl. rewrite <- app_assoc, drop_app_length. done.
  - unfold emitted. simpl. rewrite drop_app_length. done.
Qed.

(** C7: [start] runs exactly two units, the server unit and the UI unit,
    and the [agent] option goes to the server unit as its [agent] argument
    and to nothing else.  In every state of the session the callables are
    the server's, with [ui] off and the option as given, and [ui]; the
    same interleaving with the other value of the option gives the same
    group but for that argument (same units, same states, same signals,
    same queue and phase); and of the two units only the server unit reads
    the option: it opens the agent alongside the server when the option is
    set and the server alone when it is not, while the UI unit is the
    command [ui] either way. *)
Theorem start_two_units agent acts g :
  TaskGroup.run acts (start agent) = Some g →
  TaskGroup.body <$> TaskGroup.units g = [StartOrion false agent; Ui] ∧
  (∀ other,
     TaskGroup.run acts (start other) = Some (TaskGroup.with_bodies (set_agent other) g)) ∧
  (∀ server companion P w,
     installed w (program server) = true →
     installed w (program companion) = true →
     ∃ m0 m1,
       TaskGroup.units g = [m0; m1] ∧
       opened (unit_command server companion P (TaskGroup.body m0)) w =
         (if agent then [companion] else []) ++ [server] ∧
       unit_command server companion P (TaskGroup.body m1) = ui P).
Proof.
  intros Hrun.
  pose proof (run_bodies _ _ _ Hrun) as Hb. simpl in Hb.
  split; [exact Hb |]. split.
  - intros other.
    change (start other) with (TaskGroup.with_bodies (set_agent other) (start agent)).
    by rewrite with_bodies_run, Hrun.
  - intros server companion P w Hs Hc.
    destruct (TaskGroup.units g) as [| m0 [| m1 [| m2 l]]]; try discriminate Hb.
    injection Hb as Hb0 Hb1. exists m0, m1. split; [done |].
    rewrite Hb0, Hb1. split; [| done]. simpl. by apply start_orion_opened.
Qed.

Lemma start_two_units_witness :
  ∃ g, TaskGroup.run install_fails (start true) = Some g ∧
    TaskGroup.run install_fails (start false) =
      Some (TaskGroup.with_bodies (set_agent false) g) ∧
    opened (start_orion ["uvicorn"] ["prefect"; "agent"; "start"] false true) machine_full =
      [["prefect"; "agent"; "start"]; ["uvicorn"]].
Proof.
  eexists. split; [vm_compute; reflexivity |].
  edestruct (start_two_units true install_fails) as (_ & H2 & H3);
    [vm_compute; reflexivity |].
  split; [exact (H2 false) |].
  destruct (H3 ["uvicorn"] ["prefect"; "agent"; "start"] repo machine_full eq_refl eq_refl)
    as (m0 & m1 & Hu & Ho & _).
  injection Hu as <- <-. exact Ho.
Defined.

(** ** start: what ends the session *)

Lemma start_outcomes agent : TaskGroup.outcomes (start agent).
Proof.
  split; simpl.
  - intros i o Hin. by apply elem_of_nil in Hin.
  - repeat constructor; done.
  - intros _ [| [| i]] m o Hi Hst; simpl in Hi; try done;
      injection Hi as <-; done.
  - intros e [H | H]; done.
Qed.

Lemma start_invariants agent acts g :
  TaskGroup.run acts (start agent) = Some g →
  TaskGroup.fan_in g ∧ TaskGroup.outcomes g.
Proof. apply invariants_run; [apply start_fan_in | apply start_outcomes]. Qed.

Lemma ui_prints P w msg :
  Printed msg ∈ emitted w (world_of (ui P w)) →
  msg = "Installing npm packages..." ∨ msg = "Starting UI development server...".
Proof.
  unfold ui. intros Hin.
  run_cmd; norm_log; pick_event; auto.
Qed.

Lemma ui_ignores_watch_status P w w1 k rc w' :
  ui P w = Await w1 k →
  ∃ w2, k rc w' = Return (Ok tt) w2 ∧
        emitted w' w2 = [Closed ["npm"; "run"; "serve"] rc].
Proof.
  unfold ui. intros H.
  run_cmd; simplify_eq; simpl.
  eexists. split; [reflexivity |]. by norm_log.
Qed.

Lemma start_concluded agent acts g :
  TaskGroup.run acts (start agent) = Some g →
  TaskGroup.returned g = true ↔ TaskGroup.collected g = 2%nat.
Proof.
  intros Hrun.
  assert (length (TaskGroup.units g) = 2%nat) as Hlen.
  { rewrite <- (length_fmap TaskGroup.body), (run_bodies _ _ _ Hrun). done. }
  split.
  - intros Hr. destruct (start_invariants _ _ _ Hrun) as [[_ F2 _] _].
    rewrite (F2 Hr). exact Hlen.
  - intros Hc. apply (run_concluded acts (start agent) g); [done | done |].
    by rewrite Hlen.
Qed.

Lemma ui_watch_completion P w w1 k rc w2 :
  ui P w = Await w1 k →
  completion 1 (k rc w2) = Some (TaskGroup.Finish 1 (Ok tt)).
Proof.
  intros H. destruct (ui_ignores_watch_status P w w1 k rc w2 H) as (w3 & E & _).
  unfold completion. by rewrite E.
Qed.

(** C2, as the task group has it: a unit that ends cleanly stops nobody,
    and a unit that fails ends the session with its error.  While no
    failure has been collected no unit can be stopped, and collecting a
    clean completion changes no unit and leaves the group running; the
    group does not return while a unit is running; only collecting a
    failure makes the group cancel, with every running unit signalled and
    that failure as the first error; and a group that ended without an
    error has seen both units succeed.  The error of the group is the
    first error collected in the interleaving and stays it; the group
    returns, with that error, exactly when both completions have been
    collected, and it can get there: a signalled unit can be stopped and
    the completion of a unit that has ended can be taken.  An exit of the
    watch process, with any status, makes [ui] come back normally: its
    completion is a clean one, and taking it leaves the server unit as it
    was and the group not cancelling. *)
Theorem start_stops_on_failure_only agent acts g :
  TaskGroup.run acts (start agent) = Some g →
  (TaskGroup.cancelling g = false → ∀ i, TaskGroup.step (TaskGroup.Stop i) g = None) ∧
  (∀ m, m ∈ TaskGroup.units g → TaskGroup.st m = TaskGroup.Running →
        TaskGroup.returned g = false) ∧
  (TaskGroup.ph g = TaskGroup.GRunning →
   ∀ i rest, TaskGroup.queue g = (i, TaskGroup.Succeeded) :: rest →
     ∃ g', TaskGroup.step TaskGroup.Receive g = Some g' ∧
           TaskGroup.units g' = TaskGroup.units g ∧
           TaskGroup.cancelling g' = false) ∧
  (TaskGroup.ph g = TaskGroup.GRunning →
   ∀ i e rest, TaskGroup.queue g = (i, TaskGroup.Failed e) :: rest →
     ∃ g', TaskGroup.step TaskGroup.Receive g = Some g' ∧
           (TaskGroup.ph g' = TaskGroup.GCancelling e ∨
            TaskGroup.ph g' = TaskGroup.GTerminated e) ∧
           Forall (λ m, TaskGroup.is_running m = true → TaskGroup.signalled m = true)
             (TaskGroup.units g')) ∧
  (TaskGroup.ph g = TaskGroup.GSucceeded →
   Forall (λ m, TaskGroup.st m = TaskGroup.Ended TaskGroup.Succeeded) (TaskGroup.units g)) ∧
  match TaskGroup.first_collected acts [] with
  | Some e =>
      (TaskGroup.ph g = TaskGroup.GCancelling e ∨ TaskGroup.ph g = TaskGroup.GTerminated e) ∧
      (TaskGroup.collected g = 2%nat → TaskGroup.group_result g = Some (Raise e)) ∧
      (TaskGroup.collected g ≠ 2%nat → TaskGroup.group_result g = None)
  | None => TaskGroup.ph g = TaskGroup.GRunning ∨ TaskGroup.ph g = TaskGroup.GSucceeded
  end ∧
  (TaskGroup.returned g = true ↔ TaskGroup.collected g = 2%nat) ∧
  (TaskGroup.returned g = false →
   Forall (λ m, TaskGroup.is_running m = false) (TaskGroup.units g) →
   ∃ g', TaskGroup.step TaskGroup.Receive g = Some g') ∧
  (TaskGroup.cancelling g = true →
   ∀ i m, TaskGroup.units g !! i = Some m → TaskGroup.st m = TaskGroup.Running →
          ∃ g', TaskGroup.step (TaskGroup.Stop i) g = Some g') ∧
  (∀ P w w1 k rc w2,
     ui P w = Await w1 k →
     completion 1 (k rc w2) = Some (TaskGroup.Finish 1 (Ok tt)) ∧
     (TaskGroup.ph g = TaskGroup.GRunning → TaskGroup.queue g = [] →
      ∀ m, TaskGroup.units g !! 1%nat = Some m → TaskGroup.st m = TaskGroup.Running →
        ∃ g', TaskGroup.run [TaskGroup.Finish 1 (Ok tt); TaskGroup.Receive] g = Some g' ∧
              TaskGroup.units g' !! 0%nat = TaskGroup.units g !! 0%nat ∧
              TaskGroup.cancelling g' = false)).
Proof.
  intros Hrun. destruct (start_invariants _ _ _ Hrun) as [Hf Ho].
  pose proof (start_concluded _ _ _ Hrun) as Hret.
  split; [| split; [| split; [| split; [| split; [| split; [| split; [| split; [| split]]]]]]]].
  - intros Hc i. simpl. destruct (TaskGroup.units g !! i) as [m |] eqn:Hi; [| done].
    destruct Hf as [_ _ F3]. rewrite Forall_lookup in F3.
    specialize (F3 i m Hi). rewrite Hc in F3. by rewrite F3.
  - intros m Hm Hst. destruct (TaskGroup.returned g) eqn:Hr; [| done].
    pose proof (fan_in_returned_all_ended _ Hf Hr) as Hall.
    rewrite Forall_forall in Hall. specialize (Hall m Hm).
    unfold TaskGroup.is_running in Hall. by rewrite Hst in Hall.
  - intros Hp i rest Hq. simpl. unfold TaskGroup.receive, TaskGroup.returned.
    rewrite Hp, Hq. eexists. split; [reflexivity |].
    by rewrite conclude_units, conclude_cancelling.
  - intros Hp i e rest Hq. simpl. unfold TaskGroup.receive, TaskGroup.returned.
    rewrite Hp, Hq. eexists. split; [reflexivity |]. split.
    + unfold TaskGroup.conclude. case_decide; simpl; auto.
    + rewrite conclude_units. simpl. apply signal_all_signalled.
  - by apply succeeded_all_succeeded.
  - pose proof (run_first_collected acts (start agent) g eq_refl Hrun) as Hfc.
    simpl in Hfc. destruct (TaskGroup.first_collected acts []) as [e |]; [| done].
    split; [done |]. unfold TaskGroup.group_result. split.
    + intros Hc. apply Hret in Hc. unfold TaskGroup.returned in Hc.
      destruct Hfc as [Hp | Hp]; rewrite Hp in *; done.
    + intros Hc. destruct Hfc as [Hp | Hp]; rewrite Hp; [done |].
      destruct Hc. apply Hret. unfold TaskGroup.returned. by rewrite Hp.
  - exact Hret.
  - intros Hr Hall. simpl. apply fan_in_progress; try done.
    intros Hc. apply Hret.
    rewrite Hc, <- (length_fmap TaskGroup.body), (run_bodies _ _ _ Hrun). done.
  - intros Hc i m Hi Hst. simpl. rewrite Hi.
    destruct Hf as [_ _ F3]. rewrite Forall_lookup in F3.
    specialize (F3 i m Hi). rewrite Hc in F3.
    rewrite F3 by (unfold TaskGroup.is_running; by rewrite Hst).
    unfold TaskGroup.finish. rewrite Hi. unfold TaskGroup.is_running. rewrite Hst. eauto.
  - intros P w w1 k rc w2 Hui. split; [by apply (ui_watch_completion P w w1) |].
    intros Hp Hq m Hm Hst. simpl.
    unfold TaskGroup.finish. rewrite Hm. unfold TaskGroup.is_running. rewrite Hst.
    unfold TaskGroup.receive, TaskGroup.returned. simpl. rewrite Hp, Hq. simpl.
    eexists. split; [reflexivity |].
    rewrite conclude_units, conclude_cancelling. simpl.
    split; [by rewrite list_lookup_insert_ne | done].
Qed.

Lemma start_stops_on_failure_only_witness :
  ∃ g, TaskGroup.run [TaskGroup.Finish 1 (Ok tt)] (start true) = Some g ∧
    (∃ g', TaskGroup.step TaskGroup.Receive g = Some g' ∧
           TaskGroup.units g' = TaskGroup.units g ∧
           TaskGroup.cancelling g' = false) ∧
    TaskGroup.step (TaskGroup.Stop 0) g = None.
Proof.
  eexists. split; [vm_compute; reflexivity |].
  edestruct (start_stops_on_failure_only true [TaskGroup.Finish 1 (Ok tt)])
    as (H1 & _ & H3 & _); [vm_compute; reflexivity |].
  split.
  - eapply (H3 eq_refl 1%nat []). vm_compute. reflexivity.
  - apply H1. vm_compute. reflexivity.
Defined.

(** C2 as stated fails: the watch process exits with status 0, [ui]
    returns, the supervisor collects the clean completion, and the server
    unit is still running, unsignalled; it cannot be stopped, and there is
    nothing for the supervisor to collect: the session goes on with one
    unit. *)
Lemma clean_exit_leaves_server_running :
  fst <$> resume (ui repo (machine 0 0 0)) [0] = Some (Ok tt) ∧
  ∃ g, TaskGroup.run [TaskGroup.Finish 1 (Ok tt); TaskGroup.Receive] (start true) = Some g ∧
    TaskGroup.returned g = false ∧
    TaskGroup.units g !! 0%nat =
      Some {| TaskGroup.body := StartOrion false true;
              TaskGroup.st := TaskGroup.Running;
              TaskGroup.signalled := false |} ∧
    TaskGroup.step (TaskGroup.Stop 0) g = None ∧
    TaskGroup.step TaskGroup.Receive g = None.
Proof.
  split; [vm_compute; reflexivity |].
  eexists. split; [vm_compute; reflexivity |].
  repeat split; vm_compute; reflexivity.
Qed.

(** ** start: what a failure shows *)





(** * Further properties of the commands *)

(** ** build_ui: when a step fails *)

Lemma wp_exists {A} (m : M A) w r0 (Q : world → Prop) :
  wp m w (λ r w', r = r0 ∧ Q w') → ∃ w', m w = Return r0 w' ∧ Q w'.
Proof.
  intros H. destruct (wp_returns _ _ _ H) as (r & w' & E & -> & HQ). eauto.
Qed.

(** X1: when [npm ci install] exits with a non-zero status, [build_ui]
    stops there: the build is never run, nothing is removed or copied,
    and the file system is exactly what the tool left. *)
Theorem build_ui_install_failure P w rc fs1 :
  installed w "npm" = true →
  tools w ["npm"; "ci"; "install"] (os_environ w) (root_path P ++ ["orion-ui"]) (fs w)
    = (rc, fs1) →
  rc ≠ 0 →
  ∃ w', build_ui P w = Return (Raise (CalledProcessError rc ["npm"; "ci"; "install"])) w' ∧
    fs w' = fs1 ∧
    emitted w w' =
      [Printed "Installing npm packages...";
       Ran ["npm"; "ci"; "install"] (os_environ w) (root_path P ++ ["orion-ui"]) rc].
Proof.
  intros Hi Ht Hrc. apply wp_exists. unfold build_ui. wp_run.
  all: simpl in *; try congruence.
  all: rewrite Ht in *; simplify_eq; try done.
  split; [done |]. split; [done |]. by norm_log.
Qed.

Lemma build_ui_install_failure_witness :
  ∃ w', build_ui repo (machine 2 0 0) =
          Return (Raise (CalledProcessError 2 ["npm"; "ci"; "install"])) w' ∧
    fs w' ["repo"; "src"; "prefect"; "orion"; "ui"; "stale.js"] = Some (File (Text "stale")).
Proof.
  destruct (build_ui_install_failure repo (machine 2 0 0) 2 checkout) as (w' & E & Hfs & _).
  - vm_compute. reflexivity.
  - vm_compute. reflexivity.
  - discriminate.
  - exists w'. split; [exact E |]. rewrite Hfs. vm_compute. reflexivity.
Defined.

(** X2: when the install succeeds and [npm run build] exits with a
    non-zero status, [build_ui] stops there: it removes and copies
    nothing, so the static path holds whatever the tools left there. *)
Theorem build_ui_build_failure P w fs1 rc fs2 :
  installed w "npm" = true →
  tools w ["npm"; "ci"; "install"] (os_environ w) (root_path P ++ ["orion-ui"]) (fs w)
    = (0, fs1) →
  tools w ["npm"; "run"; "build"] (<["ORION_UI_SERVE_BASE" := "/"]> (os_environ w))
    (root_path P ++ ["orion-ui"]) fs1 = (rc, fs2) →
  rc ≠ 0 →
  ∃ w', build_ui P w = Return (Raise (CalledProcessError rc ["npm"; "run"; "build"])) w' ∧
    fs w' = fs2 ∧
    (∀ p, Removed p ∉ emitted w w') ∧
    (∀ s d, Copied s d ∉ emitted w w').
Proof.
  intros Hi Ht1 Ht2 Hrc. apply wp_exists. unfold build_ui. wp_run.
  all: simpl in *; try congruence.
  all: rewrite Ht1 in *; simplify_eq; simpl in *.
  all: rewrite Ht2 in *; simplify_eq; try done.
  split; [done |]. split; [done |].
  norm_log. split; [intros p Hin | intros s d Hin]; pick_event.
Qed.

Lemma build_ui_build_failure_witness :
  ∃ w', build_ui repo (machine 0 0 1) =
          Return (Raise (CalledProcessError 1 ["npm"; "run"; "build"])) w' ∧
    fs w' ["repo"; "src"; "prefect"; "orion"; "ui"; "stale.js"] = Some (File (Text "stale")).
Proof.
  destruct (build_ui_build_failure repo (machine 0 0 1) checkout 1
              (npm 0 0 1 ["npm"; "run"; "build"] ∅ ["repo"; "orion-ui"] checkout).2)
    as (w' & E & Hfs & _).
  - vm_compute. reflexivity.
  - vm_compute. reflexivity.
  - reflexivity.
  - discriminate.
  - exists w'. split; [exact E |]. rewrite Hfs. vm_compute. reflexivity.
Defined.

Ltac wp_to_copy :=
  repeat (lazymatch goal with
          | |- wp (copytree _ _) _ _ => fail
          | _ => wp_step
          end).

Lemma wp_copytree_missing srcl dstl w (Q : result unit → world → Prop) :
  fs w (resolve w srcl) = None →
  Q (Raise (FileNotFoundError (resolve w srcl))) w →
  wp (copytree srcl dstl) w Q.
Proof. intros Hs HQ. unfold wp, copytree. by rewrite Hs. Qed.

(** X3: the old build is removed before the new one is known to be
    there.  When both npm runs exit with 0 but the build left no
    orion-ui/dist, and the static path was a directory, [build_ui] fails
    with FileNotFoundError for orion-ui/dist after the static path has
    been removed: nothing is left below it. *)
Theorem build_ui_missing_dist P w fs1 fs2 :
  installed w "npm" = true →
  tools w ["npm"; "ci"; "install"] (os_environ w) (root_path P ++ ["orion-ui"]) (fs w)
    = (0, fs1) →
  tools w ["npm"; "run"; "build"] (<["ORION_UI_SERVE_BASE" := "/"]> (os_environ w))
    (root_path P ++ ["orion-ui"]) fs1 = (0, fs2) →
  fs2 (ui_static_path P) = Some Dir →
  fs2 (root_path P ++ ["orion-ui"; "dist"]) = None →
  ∃ w', build_ui P w =
          Return (Raise (FileNotFoundError (root_path P ++ ["orion-ui"; "dist"]))) w' ∧
    (∀ r, fs w' (ui_static_path P ++ r) = None) ∧
    Removed (ui_static_path P) ∈ emitted w w' ∧
    (∀ s d, Copied s d ∉ emitted w w').
Proof.
  intros Hi Ht1 Ht2 Hstatic Hdist. apply wp_exists. unfold build_ui. wp_to_copy.
  all: simpl in *; try congruence.
  all: rewrite Ht1 in *; simplify_eq; simpl in *.
  all: rewrite Ht2 in *; simplify_eq; simpl in *.
  all: try congruence.
  - apply wp_copytree_missing; simpl.
    { unfold remove_tree. by rewrite Hdist, Tauto.if_same. }
    split; [done |]. split; [intros r; apply remove_tree_below |].
    norm_log. split; [find_event | intros s d Hin; pick_event].
  - rewrite Hstatic in *. by apply bool_decide_eq_false_1 in H3 as [].
Qed.

Lemma build_ui_missing_dist_witness :
  ∃ w', build_ui repo machine_idle =
          Return (Raise (FileNotFoundError ["repo"; "orion-ui"; "dist"])) w' ∧
    fs machine_idle ["repo"; "src"; "prefect"; "orion"; "ui"; "stale.js"]
      = Some (File (Text "stale")) ∧
    fs w' ["repo"; "src"; "prefect"; "orion"; "ui"; "stale.js"] = None.
Proof.
  destruct (build_ui_missing_dist repo machine_idle checkout checkout)
    as (w' & E & Hfs & _).
  - vm_compute. reflexivity.
  - vm_compute. reflexivity.
  - vm_compute. reflexivity.
  - vm_compute. reflexivity.
  - vm_compute. reflexivity.
  - exists w'. split; [exact E |]. split; [vm_compute; reflexivity |].
    apply (Hfs ["stale.js"]).
Defined.

(** ** build_ui: what it leaves alone *)



(** ** build_docs: one file, or nothing *)

Lemma is_dir_true o : is_dir o = true ↔ o = Some Dir.
Proof. destruct o as [[| c] |]; simpl; split; congruence. Qed.

Lemma is_dir_false o : is_dir o = false ↔ o ≠ Some Dir.
Proof. destruct o as [[| c] |]; simpl; split; congruence. Qed.

Lemma obstacle_on_None f dirs :
  obstacle_on f dirs = None ↔ Forall (λ a, f a = Some Dir) dirs.
Proof.
  induction dirs as [| a dirs IH]; simpl; [by split |].
  rewrite Forall_cons. destruct (f a) as [[| c] |]; [| split; [done | by intros [? _]]..].
  rewrite IH. split; [by intros ?; split | by intros [_ ?]].
Qed.


(** What [open] answers, case by case. *)
Lemma locate_spec w pl :
  let p := resolve w pl in
  match locate w pl with
  | inr q =>
      q = p ∧ Forall (λ a, fs w a = Some Dir) (through w pl) ∧
      denotes_dir pl = false ∧ fs w p ≠ Some Dir ∧ p ≠ []
  | inl e =>
      (e = IsADirectoryError p ∧ Forall (λ a, fs w a = Some Dir) (through w pl) ∧
       (denotes_dir pl = true ∨ fs w p = Some Dir ∨ p = []))
      ∨ (e = FileNotFoundError p ∧ obstacle_on (fs w) (through w pl) = Some Missing)
      ∨ (e = NotADirectoryError p ∧ obstacle_on (fs w) (through w pl) = Some NotDir)
  end.
Proof.
  intros p. unfold locate. fold p.
  destruct (obstacle_on (fs w) (through w pl)) as [[] |] eqn:Ho; [auto | auto |].
  apply obstacle_on_None in Ho.
  destruct (denotes_dir pl) eqn:Hd; simpl; [left; auto |].
  destruct (is_dir (fs w p)) eqn:Hp; simpl.
  { apply is_dir_true in Hp. left. auto. }
  apply is_dir_false in Hp.
  case_bool_decide as Hnil; [left; auto | done].
Qed.

Lemma build_docs_unfold P openapi sp :
  ∃ shown,
    build_docs P openapi sp =
      (json_dump (JObj (dict_set "info" (JObj []) openapi)) (docs_target P sp);;
       console_print ("OpenAPI schema written to " ++ shown)%string).
Proof.
  unfold build_docs, docs_target, default_schema_path.
  destruct sp as [[| c s] |]; simpl; eauto.
Qed.



(** ** build_docs: the dict assignment *)

Lemma dict_set_missing k v d :
  dict_get k d = None → dict_set k v d = d ++ [(k, v)].
Proof.
  induction d as [| [k' v'] d IH]; simpl; [done |].
  destruct (decide (k' = k)); [done |]. intros Hk. by rewrite IH.
Qed.

Lemma dict_set_idempotent k v d : dict_set k v (dict_set k v d) = dict_set k v d.
Proof.
  induction d as [| [k' v'] d IH]; simpl.
  - by rewrite decide_True.
  - destruct (decide (k' = k)) as [-> | Hne]; simpl.
    + by rewrite decide_True.
    + rewrite decide_False by done. by rewrite IH.
Qed.

(** X6: the assignment [schema["info"] = {}] on a generated schema that
    has no "info" key adds the key after the schema's own items: when
    [build_docs] succeeds, the target holds the items of the schema, in
    their order, followed by an empty "info". *)
Theorem build_docs_missing_info P openapi sp w w' :
  dict_get "info" openapi = None →
  build_docs P openapi sp w = Return (Ok tt) w' →
  fs w' (resolve w (docs_target P sp)) =
    Some (File (Document (JObj (openapi ++ [("info", JObj [])])))).
Proof.
  intros Hk.
  destruct (build_docs_unfold P openapi sp) as [shown ->].
  unfold mbind, M_bind, json_dump.
  destruct (locate w (docs_target P sp)) as [e | p] eqn:E; simpl; intros H;
    [discriminate H |].
  injection H as <-. simpl.
  rewrite <- (locate_resolve _ _ _ E).
  rewrite decide_True by done. by rewrite dict_set_missing.
Qed.

Lemma build_docs_missing_info_witness :
  fs (world_of (build_docs repo [("openapi", JStr "3.0.2")] None (machine 0 0 0)))
     ["repo"; "docs"; "api-ref"; "schema.json"] =
    Some (File (Document (JObj [("openapi", JStr "3.0.2"); ("info", JObj [])]))).
Proof.
  apply (build_docs_missing_info repo [("openapi", JStr "3.0.2")] None (machine 0 0 0)).
  - vm_compute. reflexivity.
  - vm_compute. reflexivity.
Defined.

(** X7: [build_docs] can be run again.  After a run that succeeded, the
    same command in the world it left succeeds and leaves every path of
    the file system as the first run left it; and feeding it the schema
    it wrote gives the same command again. *)
Theorem build_docs_rerun P openapi sp w w1 :
  build_docs P openapi sp w = Return (Ok tt) w1 →
  (∃ w2, build_docs P openapi sp w1 = Return (Ok tt) w2 ∧
         ∀ q, fs w2 q = fs w1 q) ∧
  build_docs P (dict_set "info" (JObj []) openapi) sp = build_docs P openapi sp.
Proof.
  intros E. split.
  - revert E.
    destruct (build_docs_unfold P openapi sp) as [shown ->].
    unfold mbind, M_bind, json_dump.
    pose proof (locate_spec w (docs_target P sp)) as Hspec. cbv zeta in Hspec.
    destruct (locate w (docs_target P sp)) as [e | p]; simpl; intros E;
      [discriminate E |].
    injection E as <-.
    destruct Hspec as (-> & Hdirs & Hd & Hp & Hnil).
    set (target := docs_target P sp) in *.
    set (p := resolve w target) in *.
    set (doc := JObj (dict_set "info" (JObj []) openapi)).
    set (w1 := record (Printed _) _).
    assert (resolve w1 target = p) as Hres by (by destruct target).
    assert (through w1 target = through w target) as Hthr by (by destruct target).
    assert (fs w1 p = Some (File (Document doc))) as Hfile.
    { subst w1. simpl. by rewrite decide_True. }
    assert (locate w1 target = inr p) as Hloc.
    { assert (obstacle_on (fs w1) (through w target) = None) as Hobs.
      { apply obstacle_on_None. eapply Forall_impl; [exact Hdirs |].
        intros a Ha. subst w1. simpl. rewrite decide_False; [done |].
        intros ->. congruence. }
      unfold locate. rewrite Hres, Hthr, Hobs, Hd, Hfile.
      by rewrite bool_decide_eq_false_2. }
    rewrite Hloc. simpl. eexists. split; [reflexivity |]. simpl.
    intros q. destruct (decide (q = p)) as [-> |]; [by rewrite <- Hfile | done].
  - unfold build_docs. by rewrite dict_set_idempotent.
Qed.

Lemma build_docs_rerun_witness :
  ∃ w2, build_docs repo schema0 None
          (world_of (build_docs repo schema0 None (machine 0 0 0))) = Return (Ok tt) w2 ∧
    ∀ q, fs w2 q = fs (world_of (build_docs repo schema0 None (machine 0 0 0))) q.
Proof.
  apply (build_docs_rerun repo schema0 None (machine 0 0 0)).
  vm_compute. reflexivity.
Defined.

(** ** string.Template: what is written is what is read *)

Section template.
Import Template.
Variable mapping : gmap string string.

Lemma string_app_cons c (s t : string) : (String c s ++ t = String c (s ++ t))%string.
Proof. reflexivity. Qed.

Lemma string_app_nil_l (s : string) : ("" ++ s = s)%string.
Proof. reflexivity. Qed.

Lemma string_app_nil_r (s : string) : (s ++ "" = s)%string.
Proof. induction s as [| c s IH]; [done |]. by rewrite string_app_cons, IH. Qed.

Lemma string_app_assoc (s t u : string) : ((s ++ t) ++ u = s ++ (t ++ u))%string.
Proof.
  induction s as [| c s IH]; [done |]. by rewrite !string_app_cons, IH.
Qed.

Lemma emit_app s t r : emit (s ++ t)%string r = emit s (emit t r).
Proof. destruct r as [e | u]; simpl; [done |]. by rewrite string_app_assoc. Qed.

Lemma emit_nil r : emit "" r = r.
Proof. by destruct r. Qed.

Lemma id_start_not_special c :
  id_start c = true →
  Ascii.eqb c "$" = false ∧ Ascii.eqb c "{" = false ∧ id_char c = true.
Proof.
  destruct c as [[] [] [] [] [] [] [] []]; vm_compute; intros H;
    first [discriminate H | done].
Qed.

Lemma id_char_not_special c :
  id_char c = true → Ascii.eqb c "$" = false ∧ Ascii.eqb c "}" = false.
Proof.
  destruct c as [[] [] [] [] [] [] [] []]; vm_compute; intros H;
    first [discriminate H | done].
Qed.

Lemma sub_plain s t :
  plain s = true →
  sub mapping Literal (s ++ t)%string = emit s (sub mapping Literal t).
Proof.
  induction s as [| c s IH]; simpl; intros H.
  - by rewrite ?string_app_nil_l, emit_nil.
  - apply andb_prop in H as [Hc Hs]. apply negb_true_iff in Hc.
    rewrite ?string_app_cons; simpl. rewrite Hc, (IH Hs).
    by rewrite <- emit_app.
Qed.

Lemma sub_named s id t :
  id_chars s = true →
  sub mapping (Named id) (s ++ t)%string = sub mapping (Named (id ++ s)%string) t.
Proof.
  revert id. induction s as [| c s IH]; simpl; intros id H.
  - by rewrite ?string_app_nil_l, ?string_app_nil_r.
  - apply andb_prop in H as [Hc Hs].
    rewrite ?string_app_cons; simpl. rewrite Hc, (IH _ Hs).
    by rewrite string_app_assoc.
Qed.

Lemma sub_named_end id t :
  starts_id t = false →
  sub mapping (Named id) t = convert mapping id (sub mapping Literal t).
Proof.
  destruct t as [| c t]; simpl; [done |]. by intros ->.
Qed.

Lemma sub_braced s id t :
  id_chars s = true →
  sub mapping (Braced id) (s ++ String "}" t)%string =
    convert mapping (id ++ s)%string (sub mapping Literal t).
Proof.
  revert id. induction s as [| c s IH]; simpl; intros id H.
  - by rewrite ?string_app_nil_l, ?string_app_nil_r.
  - apply andb_prop in H as [Hc Hs].
    rewrite ?string_app_cons; simpl. rewrite Hc, (IH _ Hs).
    by rewrite string_app_assoc.
Qed.

Lemma sub_name id t :
  identifier id = true → starts_id t = false →
  sub mapping Literal ("$" ++ id ++ t)%string =
    convert mapping id (sub mapping Literal t).
Proof.
  destruct id as [| c s]; simpl; [done |]. intros H Ht.
  apply andb_prop in H as [Hc Hs].
  destruct (id_start_not_special c Hc) as (H1 & H2 & H3).
  rewrite ?string_app_cons, ?string_app_nil_l; simpl. rewrite H1, Hc.
  rewrite (sub_named _ _ _ Hs). by apply sub_named_end.
Qed.

Lemma sub_brace id t :
  identifier id = true →
  sub mapping Literal ("${" ++ id ++ "}" ++ t)%string =
    convert mapping id (sub mapping Literal t).
Proof.
  destruct id as [| c s]; simpl; [done |]. intros H.
  apply andb_prop in H as [Hc Hs].
  rewrite ?string_app_cons, ?string_app_nil_l; simpl. rewrite Hc.
  by rewrite (sub_braced _ _ _ Hs).
Qed.

Lemma sub_escape t :
  sub mapping Literal ("$$" ++ t)%string = emit "$" (sub mapping Literal t).
Proof. reflexivity. Qed.

Lemma starts_id_app s t :
  starts_id s = false → starts_id t = false → starts_id (s ++ t)%string = false.
Proof. by destruct s. Qed.

(** The scan of pieces written one after the other, before any text
    that does not go on as a name: each piece is read back as itself. *)
Lemma sub_render ps t :
  well_formed ps = true → starts_id t = false →
  sub mapping Literal (render ps ++ t)%string =
    expand mapping ps (sub mapping Literal t).
Proof.
  intros Hwf Ht. induction ps as [| p ps IH]; [done |].
  change (render (p :: ps)) with (render_piece p ++ render ps)%string.
  rewrite string_app_assoc.
  destruct p as [s | | id | id]; simpl in Hwf; cbn [render_piece expand].
  - apply andb_prop in Hwf as [Hs Hwf].
    rewrite (sub_plain _ _ Hs). by rewrite IH.
  - rewrite sub_escape. by rewrite IH.
  - apply andb_prop in Hwf as [Hid Hwf]. apply andb_prop in Hid as [Hid Hnext].
    apply negb_true_iff in Hnext.
    rewrite string_app_assoc.
    rewrite (sub_name _ _ Hid) by (by apply starts_id_app). by rewrite IH.
  - apply andb_prop in Hwf as [Hid Hwf].
    rewrite !string_app_assoc.
    rewrite (sub_brace _ _ Hid). by rewrite IH.
Qed.

Lemma expand_known ps k :
  Forall (λ id, is_Some (mapping !! id)) (names ps) →
  expand mapping ps k = emit (fill mapping ps) k.
Proof.
  induction ps as [| p ps IH]; intros H.
  - by rewrite emit_nil.
  - destruct p as [s | | id | id]; cbn [expand fill names omap] in *.
    + by rewrite IH, emit_app.
    + by rewrite IH, emit_app.
    + apply Forall_cons in H as [[v Hv] H]. unfold convert. rewrite Hv.
      cbn [default]. by rewrite IH, emit_app.
    + apply Forall_cons in H as [[v Hv] H]. unfold convert. rewrite Hv.
      cbn [default]. by rewrite IH, emit_app.
Qed.

Lemma expand_app ps ps' k :
  expand mapping (ps ++ ps') k = expand mapping ps (expand mapping ps' k).
Proof.
  induction ps as [| p ps IH]; [done |].
  destruct p; cbn [app expand]; by rewrite IH.
Qed.

Lemma expand_unknown ps p ps' id k :
  Forall (λ id, is_Some (mapping !! id)) (names ps) →
  p = Name id ∨ p = Brace id →
  mapping !! id = None →
  expand mapping (ps ++ p :: ps') k = inl (KeyError id).
Proof.
  intros H Hp Hid. rewrite expand_app, expand_known by done.
  destruct Hp as [-> | ->]; cbn [expand]; unfold convert; by rewrite Hid.
Qed.

Lemma substitute_render ps :
  well_formed ps = true →
  substitute (render ps) mapping = expand mapping ps (inr "").
Proof.
  intros Hwf. unfold substitute.
  rewrite <- (string_app_nil_r (render ps)). by rewrite sub_render.
Qed.

End template.

(** ** kubernetes_manifest *)

Lemma read_text_file dumps p w s :
  fs w p = Some (File (Text s)) → read_text dumps p w = Ok s.
Proof. unfold read_text. by intros ->. Qed.

Lemma manifest_known (image_name root : string) ps :
  Forall (λ id, id = "prefect_root_directory" ∨ id = "image_name") (Template.names ps) →
  Forall (λ id, is_Some
            (({[ "prefect_root_directory" := root; "image_name" := image_name ]}
                : gmap string string) !! id))
         (Template.names ps).
Proof.
  intros H. eapply Forall_impl; [exact H |].
  intros id [-> | ->]; by eexists.
Qed.

(** X9: a template written as plain text, escaped delimiters and the
    placeholders [prefect_root_directory] and [image_name], in either
    form, is printed with each placeholder replaced by its value, each
    [$$] by one [$] and all other text as it stands.  The values are put
    in as they are: a delimiter inside a value is not read again. *)
Theorem kubernetes_manifest_renders dumps module_path image_name P w ps :
  fs w (manifest_template module_path) = Some (File (Text (Template.render ps))) →
  Template.well_formed ps = true →
  Forall (λ id, id = "prefect_root_directory" ∨ id = "image_name") (Template.names ps) →
  kubernetes_manifest dumps module_path image_name P w =
    (inr tt,
     record (Printed (Template.fill
                        {[ "prefect_root_directory" := path_str (root_path P);
                           "image_name" := image_name ]} ps)) w).
Proof.
  intros Hfile Hwf Hnames. unfold kubernetes_manifest.
  rewrite (read_text_file _ _ _ _ Hfile).
  rewrite (substitute_render _ _ Hwf).
  rewrite expand_known by (by apply manifest_known).
  simpl. by rewrite string_app_nil_r.
Qed.

Lemma kubernetes_manifest_renders_witness :
  kubernetes_manifest (λ _, "") ["repo"; "src"; "prefect"] "prefect:dev" repo
    (packaged "image: ${image_name} path: $prefect_root_directory/src cost: $$5") =
  (inr tt,
   record (Printed "image: prefect:dev path: /repo/src cost: $5")
     (packaged "image: ${image_name} path: $prefect_root_directory/src cost: $$5")).
Proof.
  apply (kubernetes_manifest_renders (λ _, "") ["repo"; "src"; "prefect"] "prefect:dev" repo
           (packaged "image: ${image_name} path: $prefect_root_directory/src cost: $$5")
           [Template.Chars "image: "; Template.Brace "image_name";
            Template.Chars " path: "; Template.Name "prefect_root_directory";
            Template.Chars "/src cost: "; Template.Escape; Template.Chars "5"]).
  - vm_compute. reflexivity.
  - vm_compute. reflexivity.
  - repeat (constructor; [first [by left | by right] |]). constructor.
Defined.

(** X10: a placeholder with any other name makes [kubernetes_manifest]
    fail with KeyError for the first such name in the text, and nothing
    is printed, whatever comes after it. *)
Theorem kubernetes_manifest_unknown_name dumps module_path image_name P w ps p ps' id :
  fs w (manifest_template module_path) =
    Some (File (Text (Template.render (ps ++ p :: ps')))) →
  Template.well_formed (ps ++ p :: ps') = true →
  Forall (λ id, id = "prefect_root_directory" ∨ id = "image_name") (Template.names ps) →
  p = Template.Name id ∨ p = Template.Brace id →
  id ≠ "prefect_root_directory" → id ≠ "image_name" →
  kubernetes_manifest dumps module_path image_name P w =
    (inl (TemplateError (Template.KeyError id)), w).
Proof.
  intros Hfile Hwf Hnames Hp Hid1 Hid2. unfold kubernetes_manifest.
  rewrite (read_text_file _ _ _ _ Hfile).
  rewrite (substitute_render _ _ Hwf).
  rewrite (expand_unknown _ ps p ps' id); [done | by apply manifest_known | done |].
  rewrite lookup_insert_ne by done. rewrite lookup_singleton_ne by done. done.
Qed.

Lemma kubernetes_manifest_unknown_name_witness :
  kubernetes_manifest (λ _, "") ["repo"; "src"; "prefect"] "prefect:dev" repo
    (packaged "image: $image_name tag: ${tag} user: $USER") =
  (inl (TemplateError (Template.KeyError "tag")),
   packaged "image: $image_name tag: ${tag} user: $USER").
Proof.
  apply (kubernetes_manifest_unknown_name (λ _, "") ["repo"; "src"; "prefect"] "prefect:dev" repo
           (packaged "image: $image_name tag: ${tag} user: $USER")
           [Template.Chars "image: "; Template.Name "image_name"; Template.Chars " tag: "]
           (Template.Brace "tag")
           [Template.Chars " user: "; Template.Name "USER"] "tag").
  - vm_compute. reflexivity.
  - vm_compute. reflexivity.
  - repeat (constructor; [first [by left | by right] |]). constructor.
  - by right.
  - discriminate.
  - discriminate.
Defined.

(** X11: a delimiter that starts neither [$$], nor a name, nor a brace
    (the last character of the template, or one before a character such
    as an opening parenthesis) makes [kubernetes_manifest] fail with
    ValueError, and nothing is printed, although everything before it
    could be substituted. *)
Theorem kubernetes_manifest_stray_delimiter dumps module_path image_name P w ps t :
  fs w (manifest_template module_path) =
    Some (File (Text (Template.render ps ++ "$" ++ t)%string)) →
  Template.well_formed ps = true →
  Forall (λ id, id = "prefect_root_directory" ∨ id = "image_name") (Template.names ps) →
  match t with
  | EmptyString => True
  | String c _ =>
      Ascii.eqb c "$" = false ∧ Ascii.eqb c "{" = false ∧ Template.id_start c = false
  end →
  kubernetes_manifest dumps module_path image_name P w =
    (inl (TemplateError Template.ValueError), w).
Proof.
  intros Hfile Hwf Hnames Ht. unfold kubernetes_manifest.
  rewrite (read_text_file _ _ _ _ Hfile).
  unfold Template.substitute.
  rewrite (sub_render _ _ _ Hwf) by done.
  rewrite expand_known by (by apply manifest_known).
  assert (Template.sub
            {[ "prefect_root_directory" := path_str (root_path P);
               "image_name" := image_name ]}
            Template.Literal ("$" ++ t)%string = inl Template.ValueError) as ->.
  { destruct t as [| c t]; [done |]. destruct Ht as (H1 & H2 & H3).
    change ("$" ++ String c t)%string with (String "$" (String c t)).
    simpl. by rewrite H1, H3, H2. }
  done.
Qed.

Lemma kubernetes_manifest_stray_delimiter_witness :
  kubernetes_manifest (λ _, "") ["repo"; "src"; "prefect"] "prefect:dev" repo
    (packaged "image: $image_name args: $(ARGS)") =
  (inl (TemplateError Template.ValueError),
   packaged "image: $image_name args: $(ARGS)").
Proof.
  apply (kubernetes_manifest_stray_delimiter (λ _, "") ["repo"; "src"; "prefect"]
           "prefect:dev" repo (packaged "image: $image_name args: $(ARGS)")
           [Template.Chars "image: "; Template.Name "image_name"; Template.Chars " args: "]
           "(ARGS)").
  - vm_compute. reflexivity.
  - vm_compute. reflexivity.
  - repeat (constructor; [first [by left | by right] |]). constructor.
  - vm_compute. done.
Defined.

(** X12: [kubernetes_manifest] only reads and prints.  Either it prints
    one text and leaves the working directory, the environment and the
    files as they were, or it fails and leaves the world as it found it
    with nothing printed; a template that is missing (with no file in the
    way above it) is a FileNotFoundError and a directory in its place an
    IsADirectoryError, both for the path of the template. *)
Theorem kubernetes_manifest_reads_only dumps module_path image_name P w :
  let p := manifest_template module_path in
  let out := kubernetes_manifest dumps module_path image_name P w in
  ((∃ manifest, out = (inr tt, record (Printed manifest) w)) ∨
   (∃ e, out = (inl e, w))) ∧
  (fs w p = Some Dir → out = (inl (OSError (IsADirectoryError p)), w)) ∧
  (fs w p = None → Forall (λ a, is_file (fs w a) = false) (ancestors p) →
   out = (inl (OSError (FileNotFoundError p)), w)).
Proof.
  intros p out. subst out. unfold kubernetes_manifest. fold p.
  split; [| split].
  - destruct (read_text dumps p w) as [text | e]; [| eauto].
    destruct (Template.substitute text _) as [e | manifest]; eauto.
  - intros Hd. unfold read_text. by rewrite Hd.
  - intros Hn Hanc. unfold read_text. rewrite Hn.
    assert (existsb (λ a, is_file (fs w a)) (ancestors p) = false) as ->; [| done].
    induction Hanc as [| a l Ha Hl IH]; simpl; [done |]. by rewrite Ha, IH.
Qed.

Lemma kubernetes_manifest_reads_only_witness :
  kubernetes_manifest (λ _, "") ["opt"; "prefect"] "prefect:dev" repo machine_idle =
  (inl (OSError (FileNotFoundError ["opt"; "prefect"; "cli"; "templates"; "kubernetes-dev.yaml"])),
   machine_idle).
Proof.
  destruct (kubernetes_manifest_reads_only (λ _, "") ["opt"; "prefect"] "prefect:dev" repo
              machine_idle) as (_ & _ & H).
  apply H.
  - vm_compute. reflexivity.
  - repeat constructor.
Defined.
